(** * Module resolution of [require/resolve.go]

    A shallow embedding of the CommonJS/Node-style resolver of the
    [require] package: the path arithmetic it borrows from Go's
    [path/filepath], the two module caches, the object heap of the
    scripting runtime, and the resolver functions themselves, followed
    by the properties of the resolver. *)

From Stdlib Require Import String Ascii List ZArith Lia Bool.
From stdpp Require Import base option list strings gmap.

Local Open Scope string_scope.

(** ** POSIX paths, as Go's [path/filepath] computes them *)

Module Path.

(** [strings.Split(s, "/")]: the elements between the separators. *)
Fixpoint split_slash (s : string) : list string :=
  match s with
  | EmptyString => [EmptyString]
  | String c s' =>
      if Ascii.eqb c "/" then EmptyString :: split_slash s'
      else match split_slash s' with
           | [] => [String c EmptyString]
           | x :: xs => String c x :: xs
           end
  end.

(** [strings.Join(elems, "/")]. *)
Fixpoint join_slash (l : list string) : string :=
  match l with
  | [] => ""
  | [x] => x
  | x :: xs => x +:+ "/" +:+ join_slash xs
  end.

Definition rooted (s : string) : bool :=
  match s with
  | String c _ => Ascii.eqb c "/"
  | EmptyString => false
  end.

(** One element of [Clean]'s scan over the path. [st] is the output so
    far, last element first. An empty element and [.] are dropped; [..]
    removes the last real element when there is one, is dropped at the
    root, and is kept otherwise. *)
Definition clean_step (rt : bool) (st : list string) (c : string) : list string :=
  if String.eqb c "" then st
  else if String.eqb c "." then st
  else if String.eqb c ".." then
    match st with
    | top :: rest =>
        if String.eqb top ".." then (if rt then st else c :: st) else rest
    | [] => if rt then [] else [c]
    end
  else c :: st.

Definition clean_elems (rt : bool) (cs : list string) : list string :=
  rev (fold_left (clean_step rt) cs []).

(** [filepath.Clean]. *)
Definition Clean (s : string) : string :=
  if String.eqb s "" then "."
  else
    let body := join_slash (clean_elems (rooted s) (split_slash s)) in
    if rooted s then "/" +:+ body
    else if String.eqb body "" then "." else body.

(** [filepath.Join] of two elements: empty elements before the first
    non-empty one are ignored, the rest is joined and cleaned. *)
Definition Join (a b : string) : string :=
  if String.eqb a "" then (if String.eqb b "" then "" else Clean b)
  else Clean (a +:+ "/" +:+ b).

Fixpoint has_slash (s : string) : bool :=
  match s with
  | EmptyString => false
  | String c s' => Ascii.eqb c "/" || has_slash s'
  end.

(** The prefix of [s] up to and including its last separator. *)
Fixpoint dir_prefix (s : string) : string :=
  match s with
  | EmptyString => ""
  | String c s' => if has_slash s then String c (dir_prefix s') else ""
  end.

(** [filepath.Dir]. *)
Definition Dir (s : string) : string := Clean (dir_prefix s).

(** [s] without its trailing separators. *)
Fixpoint strip_slashes (s : string) : string :=
  match s with
  | EmptyString => ""
  | String c s' =>
      let t := strip_slashes s' in
      if Ascii.eqb c "/" && String.eqb t "" then "" else String c t
  end.

(** What follows the last separator of [s]. *)
Fixpoint last_elem (s : string) : string :=
  match s with
  | EmptyString => ""
  | String c s' => if has_slash s then last_elem s' else s
  end.

(** [filepath.Base]. *)
Definition Base (s : string) : string :=
  if String.eqb s "" then "."
  else
    let t := last_elem (strip_slashes s) in
    if String.eqb t "" then "/" else t.

(** [strings.HasPrefix(s, p)]. *)
Definition HasPrefix (s p : string) : bool := String.prefix p s.

End Path.

(** ** Values, objects and errors of the scripting runtime *)

(** A [*js.Object] is a reference; two references are the same object
    when they are the same handle. *)
Abbreviation Handle := nat.

Inductive Value :=
| VUndefined
| VString (s : string)
| VNumber (z : Z)
| VObject (h : Handle).

(** The Go [error] values the resolver sees. [IllegalModuleNameError]
    and [InvalidModuleError] are the package's two sentinels;
    [SourceError] stands for whatever the source provider reports for a
    path it cannot deliver; [JsException] is a value thrown by a module
    body (or by evaluating its program); [RequireError] is the exception
    a failing nested [require] raises inside a module body. *)
Inductive error :=
| IllegalModuleNameError
| InvalidModuleError
| SourceError (path : string)
| JsException (v : Value)
| RequireError (e : error).

Inductive result (A : Type) :=
| Ok (a : A)
| Err (e : error).
Arguments Ok {A} a.
Arguments Err {A} e.

(** What a module body does, as far as the resolver can tell: it sets
    properties of the [exports] object it was handed, replaces
    [module.exports], requires other modules (letting a failure escape
    or catching it) and throws. *)
Inductive Op :=
| OpExport (k : string) (v : Value)
| OpModuleExports (v : Value)
| OpRequire (spec : string)
| OpTryRequire (spec : string)
| OpThrow (v : Value).

(** A compiled source, by what [RunProgram] makes of it: an error, a
    value that is not callable, or the module function. *)
Inductive Program :=
| PrgRunError (v : Value)
| PrgNotCallable (v : Value)
| PrgFunction (body : list Op).

(** What a native loader does with the module object it receives. A
    loader is Go code and may call [require] itself. *)
Inductive NativeOp :=
| NExport (k : string) (v : Value)
| NModuleExports (v : Value)
| NRequire (spec : string).

Definition ModuleLoader := list NativeOp.

(** The calls the resolver makes on its collaborators, in order. *)
Inductive Event :=
| EvSource (path : string)
| EvCompile (path : string)
| EvRun (path : string) (module : Handle)
| EvNative (name : string) (module : Handle).

(** ** The registry and the resolver state *)

(** The parts of the package the resolver reads but does not own: the
    process-wide [native] table, the registry's own table, its global
    folders and its source provider, [json.Unmarshal] on a manifest
    (its [Main] field, or nothing when the bytes do not parse). *)
Record Env := mkEnv {
  globalNative : gmap string ModuleLoader;
  registryNative : gmap string ModuleLoader;
  globalFolders : list string;
  getSource : string -> result string;
  getCompiledSource : string -> result Program;
  unmarshalMain : string -> option string
}.

(** A [RequireModule] together with the heap of its runtime. *)
Record State := mkState {
  modules : gmap string Handle;
  nodeModules : gmap string Handle;
  heap : gmap Handle (gmap string Value);
  next : Handle;
  trace : list Event
}.

Definition set_modules (f : gmap string Handle -> gmap string Handle) (s : State) : State :=
  mkState (f (modules s)) (nodeModules s) (heap s) (next s) (trace s).

Definition set_nodeModules (f : gmap string Handle -> gmap string Handle) (s : State) : State :=
  mkState (modules s) (f (nodeModules s)) (heap s) (next s) (trace s).

Definition set_heap (f : gmap Handle (gmap string Value) -> gmap Handle (gmap string Value)) (s : State) : State :=
  mkState (modules s) (nodeModules s) (f (heap s)) (next s) (trace s).

Definition log (e : Event) (s : State) : State :=
  mkState (modules s) (nodeModules s) (heap s) (next s) (trace s ++ [e]).

(** [runtime.NewObject()]. *)
Definition NewObject (s : State) : Handle * State :=
  (next s, mkState (modules s) (nodeModules s) (<[next s := ∅]> (heap s)) (S (next s)) (trace s)).

(** [o.Set(k, v)]. *)
Definition object_set (o : Handle) (k : string) (v : Value) (s : State) : State :=
  set_heap (fun hp => <[o := <[k := v]> (default ∅ (hp !! o))]> hp) s.

(** [o.Get(k)]. *)
Definition object_get (o : Handle) (k : string) (s : State) : Value :=
  default VUndefined (default ∅ (heap s !! o) !! k).

(** A computation of the resolver: [None] when the fuel bounding the
    nesting of module bodies ran out. *)
Definition M (A : Type) := State -> option (State * result A).

(** The [require] a module body is given: the source name of the
    calling frame, when there is one, and the specifier. *)
Definition RequireFn := option string -> string -> M Handle.

(** [m] first, and [k] only when [m] failed. *)
Definition orelse {A} (m k : M A) : M A :=
  fun s => match m s with
           | Some (s1, Err _) => k s1
           | r => r
           end.

Definition fail {A} (e : error) : M A := fun s => Some (s, Err e).

(** ** The resolver *)

(** Modelled from the spec: [filepathClean] is declared outside
    resolve.go; it normalizes the specifier, collapsing its [.] and [..]
    segments. *)
Definition filepathClean (p : string) : string := Path.Clean p.

(** [frames[1].SrcName()] is the source name of the script that called
    [require]; [caller] is [None] when the stack holds fewer than two
    frames. *)
Definition getCurrentModulePath (caller : option string) : string :=
  match caller with
  | None => "."
  | Some src => Path.Dir src
  end.

Definition createModuleObject (s : State) : Handle * State :=
  let '(module, s1) := NewObject s in
  let '(exports, s2) := NewObject s1 in
  (module, object_set module "exports" (VObject exports) s2).

(** The call [call(jsExports, jsExports, jsRequire, jsModule)]: the
    body runs with the [exports] value read before the call and with a
    [require] whose calling frame carries the module's own path. A
    write through an [exports] that is not an object is a type error
    (the value read from a fresh module object always is an object). *)
Fixpoint run_ops (req : RequireFn) (path : string) (jsModule : Handle)
    (jsExports : Value) (ops : list Op) : M unit :=
  fun s =>
    match ops with
    | [] => Some (s, Ok tt)
    | OpExport k v :: rest =>
        match jsExports with
        | VObject e => run_ops req path jsModule jsExports rest (object_set e k v s)
        | _ => Some (s, Err (JsException (VString "TypeError")))
        end
    | OpModuleExports v :: rest =>
        run_ops req path jsModule jsExports rest (object_set jsModule "exports" v s)
    | OpRequire spec :: rest =>
        match req (Some path) spec s with
        | None => None
        | Some (s1, Ok _) => run_ops req path jsModule jsExports rest s1
        | Some (s1, Err e) => Some (s1, Err (RequireError e))
        end
    | OpTryRequire spec :: rest =>
        match req (Some path) spec s with
        | None => None
        | Some (s1, _) => run_ops req path jsModule jsExports rest s1
        end
    | OpThrow v :: _ => Some (s, Err (JsException v))
    end.

(** [ldr(r.runtime, module)]. The loader is called from inside
    [require], so a [require] it issues sees the same calling frame;
    it has no error to return. *)
Fixpoint run_native (req : RequireFn) (caller : option string) (module : Handle)
    (ops : list NativeOp) (s : State) : option State :=
  match ops with
  | [] => Some s
  | NExport k v :: rest =>
      match object_get module "exports" s with
      | VObject e => run_native req caller module rest (object_set e k v s)
      | _ => run_native req caller module rest s
      end
  | NModuleExports v :: rest =>
      run_native req caller module rest (object_set module "exports" v s)
  | NRequire spec :: rest =>
      match req caller spec s with
      | None => None
      | Some (s1, _) => run_native req caller module rest s1
      end
  end.

Definition loadModuleFile (env : Env) (req : RequireFn) (path : string)
    (jsModule : Handle) : M unit :=
  fun s =>
    let s1 := log (EvCompile path) s in
    match getCompiledSource env path with
    | Err e => Some (s1, Err e)
    | Ok (PrgRunError v) => Some (s1, Err (JsException v))
    | Ok (PrgNotCallable _) => Some (s1, Err InvalidModuleError)
    | Ok (PrgFunction body) =>
        let jsExports := object_get jsModule "exports" s1 in
        run_ops req path jsModule jsExports body (log (EvRun path jsModule) s1)
    end.

Definition loadModule (env : Env) (req : RequireFn) (path : string) : M Handle :=
  fun s =>
    match modules s !! path with
    | Some module => Some (s, Ok module)
    | None =>
        let '(module, s1) := createModuleObject s in
        let s2 := set_modules (insert path module) s1 in
        match loadModuleFile env req path module s2 with
        | None => None
        | Some (s3, Err e) => Some (set_modules (delete path) s3, Err e)
        | Some (s3, Ok _) => Some (s3, Ok module)
        end
    end.

Definition loadAsFile (env : Env) (req : RequireFn) (path : string) : M Handle :=
  orelse (loadModule env req path)
    (orelse (loadModule env req (path +:+ ".js"))
       (loadModule env req (path +:+ ".json"))).

Definition loadIndex (env : Env) (req : RequireFn) (path : string) : M Handle :=
  orelse (loadModule env req (Path.Join path "index.js"))
    (loadModule env req (Path.Join path "index.json")).

Definition loadAsDirectory (env : Env) (req : RequireFn) (path : string) : M Handle :=
  fun s =>
    let p := Path.Join path "package.json" in
    let s1 := log (EvSource p) s in
    match getSource env p with
    | Err _ => loadIndex env req path s1
    | Ok buf =>
        match unmarshalMain env buf with
        | None => loadIndex env req path s1
        | Some main =>
            if String.eqb main "" then loadIndex env req path s1
            else
              let m := Path.Join path main in
              orelse (loadAsFile env req m) (loadIndex env req m) s1
        end
    end.

Definition loadAsFileOrDirectory (env : Env) (req : RequireFn) (path : string) : M Handle :=
  orelse (loadAsFile env req path) (loadAsDirectory env req path).

Definition loadNodeModule (env : Env) (req : RequireFn) (path start : string) : M Handle :=
  loadAsFileOrDirectory env req (Path.Join start path).

(** The [range r.r.globalFolders] loop of [loadNodeModules], followed
    by [k]. *)
Fixpoint loadGlobalFolders (env : Env) (req : RequireFn) (path : string)
    (dirs : list string) (k : M Handle) : M Handle :=
  match dirs with
  | [] => k
  | dir :: rest =>
      orelse (loadNodeModule env req path dir) (loadGlobalFolders env req path rest k)
  end.

(** The [node_modules] directory tried at [start]. *)
Definition nodeModulesDir (start : string) : string :=
  if String.eqb (Path.Base start) "node_modules" then start
  else Path.Join start "node_modules".

(** The unbounded [for] loop of [loadNodeModules]; [n] bounds the number
    of iterations. *)
Fixpoint loadAscent (env : Env) (req : RequireFn) (n : nat) (path start : string) : M Handle :=
  match n with
  | O => fun _ => None
  | S n' =>
      orelse (loadNodeModule env req path (nodeModulesDir start))
        (if String.eqb start ".." then fail InvalidModuleError
         else
           let parent := Path.Dir start in
           if String.eqb parent start then fail InvalidModuleError
           else loadAscent env req n' path parent)
  end.

(** Every directory has fewer than this many ancestors
    ([ascent_terminates] below). *)
Definition ascentBound (start : string) : nat := String.length start + 2.

Definition loadNodeModules (env : Env) (req : RequireFn) (path start : string) : M Handle :=
  loadGlobalFolders env req path (globalFolders env)
    (loadAscent env req (ascentBound start) path start).

Definition nativeLoader (env : Env) (path : string) : option ModuleLoader :=
  match registryNative env !! path with
  | Some ldr => Some ldr
  | None => globalNative env !! path
  end.

Definition loadNative (env : Env) (req : RequireFn) (caller : option string)
    (path : string) : M Handle :=
  fun s =>
    match modules s !! path with
    | Some module => Some (s, Ok module)
    | None =>
        match nativeLoader env path with
        | Some ldr =>
            let '(module, s1) := createModuleObject s in
            let s2 := set_modules (insert path module) s1 in
            match run_native req caller module ldr (log (EvNative path module) s2) with
            | None => None
            | Some s3 => Some (s3, Ok module)
            end
        | None => Some (s, Err InvalidModuleError)
        end
    end.

(** The prefix test of [resolve] on the specifier as written. *)
Definition isRelative (origPath : string) : bool :=
  Path.HasPrefix origPath "./" || Path.HasPrefix origPath "/"
  || Path.HasPrefix origPath "../" || String.eqb origPath "."
  || String.eqb origPath "..".

Definition startDir (caller : option string) (origPath : string) : string :=
  if Path.HasPrefix origPath "/" then "/" else getCurrentModulePath caller.

Definition resolve (env : Env) (req : RequireFn) (caller : option string)
    (origPath : string) : M Handle :=
  fun s =>
    let path := filepathClean origPath in
    if String.eqb path "" then Some (s, Err IllegalModuleNameError)
    else
      match loadNative env req caller path s with
      | None => None
      | Some (s1, Ok module) => Some (s1, Ok module)
      | Some (s1, Err _) =>
          let start := startDir caller origPath in
          let p := Path.Join start path in
          if isRelative origPath then
            match modules s1 !! p with
            | Some module => Some (s1, Ok module)
            | None =>
                match loadAsFileOrDirectory env req p s1 with
                | None => None
                | Some (s2, Ok module) => Some (set_modules (insert p module) s2, Ok module)
                | Some (s2, Err e) => Some (s2, Err e)
                end
            end
          else
            match nodeModules s1 !! p with
            | Some module => Some (s1, Ok module)
            | None =>
                match loadNodeModules env req path start s1 with
                | None => None
                | Some (s2, Ok module) => Some (set_nodeModules (insert p module) s2, Ok module)
                | Some (s2, Err e) => Some (s2, Err e)
                end
            end
      end.

(** [require] as a module body sees it: [resolve], with the nesting of
    module bodies bounded by [n]. *)
Fixpoint require (env : Env) (n : nat) : RequireFn :=
  match n with
  | O => fun _ _ _ => None
  | S n' => resolve env (require env n')
  end.

Definition init : State := mkState ∅ ∅ ∅ 0 [].

(** ** The ascent of [loadNodeModules], as a list *)

(** The directories the [for] loop of [loadNodeModules] visits from
    [start], nearest first, cut after [n] of them. *)
Fixpoint ancestorsN (n : nat) (start : string) : list string :=
  match n with
  | O => []
  | S n' =>
      start ::
        (if String.eqb start ".." then []
         else
           let parent := Path.Dir start in
           if String.eqb parent start then [] else ancestorsN n' parent)
  end.

Definition ancestors (start : string) : list string :=
  ancestorsN (ascentBound start) start.

(** Whether the loop leaves within [n] iterations from [start]. *)
Fixpoint reachesTop (n : nat) (start : string) : bool :=
  match n with
  | O => false
  | S n' =>
      String.eqb start ".."
      || String.eqb (Path.Dir start) start
      || reachesTop n' (Path.Dir start)
  end.

(** Sizes used to bound the ascent. *)
Definition weight (l : list string) : nat :=
  fold_right (fun c n => S (String.length c) + n) 0 l.

Definition contrib (l : list string) : nat :=
  fold_right (fun c n => (if String.eqb c "" then 0 else S (String.length c)) + n) 0 l.

Definition height (s : string) : nat :=
  if String.eqb s "." then 0
  else if Path.has_slash s then S (String.length s) else 1.

(** ** The loaders, in the words of the specification *)

(** Try the candidates in order and return on the first success; the
    error is that of the last candidate. *)
Fixpoint firstSuccess (load : string -> M Handle) (c : string) (cs : list string) : M Handle :=
  fun s =>
    match load c s with
    | Some (s1, Err e) =>
        match cs with
        | [] => Some (s1, Err e)
        | c' :: cs' => firstSuccess load c' cs' s1
        end
    | r => r
    end.

(** The same over a possibly empty list, with the error [e] when no
    candidate succeeds. *)
Fixpoint firstSuccessOr (load : string -> M Handle) (cs : list string) (e : error) : M Handle :=
  fun s =>
    match cs with
    | [] => Some (s, Err e)
    | c :: cs' =>
        match load c s with
        | Some (s1, Err _) => firstSuccessOr load cs' e s1
        | r => r
        end
    end.

(** The [main] entry of the manifest of directory [path]: none when the
    manifest is absent, does not parse, or has an empty [main]. *)
Definition manifestMain (env : Env) (path : string) : option string :=
  match getSource env (Path.Join path "package.json") with
  | Err _ => None
  | Ok buf =>
      match unmarshalMain env buf with
      | Some main => if String.eqb main "" then None else Some main
      | None => None
      end
  end.

Definition loadAsDirectory_spec (env : Env) (req : RequireFn) (path : string) : M Handle :=
  fun s =>
    let s1 := log (EvSource (Path.Join path "package.json")) s in
    match manifestMain env path with
    | None =>
        firstSuccess (loadModule env req)
          (Path.Join path "index.js") [Path.Join path "index.json"] s1
    | Some main =>
        let m := Path.Join path main in
        firstSuccess (loadModule env req) m
          [m +:+ ".js"; m +:+ ".json"; Path.Join m "index.js"; Path.Join m "index.json"] s1
    end.

(** The directories searched for a bare specifier: the global folders,
    then the [node_modules] directory of every ancestor of [start]. *)
Definition searchDirs (env : Env) (start : string) : list string :=
  globalFolders env ++ map nodeModulesDir (ancestors start).

Definition loadNodeModules_spec (env : Env) (req : RequireFn) (path start : string) : M Handle :=
  firstSuccessOr (loadAsFileOrDirectory env req)
    (map (fun dir => Path.Join dir path) (searchDirs env start)) InvalidModuleError.

(** ** The files a path can resolve to *)

Definition fileCandidates (p : string) : list string :=
  [p; p +:+ ".js"; p +:+ ".json"].

Definition indexCandidates (p : string) : list string :=
  [Path.Join p "index.js"; Path.Join p "index.json"].

Definition directoryCandidates (env : Env) (p : string) : list string :=
  match manifestMain env p with
  | None => indexCandidates p
  | Some main => fileCandidates (Path.Join p main) ++ indexCandidates (Path.Join p main)
  end.

Definition candidates (env : Env) (p : string) : list string :=
  fileCandidates p ++ directoryCandidates env p.



(** Every file [resolve] can try for [origPath] once the native lookup
    and the request key have missed. *)
Definition requestCandidates (env : Env) (caller : option string) (origPath : string) : list string :=
  let path := filepathClean origPath in
  let start := startDir caller origPath in
  if isRelative origPath then candidates env (Path.Join start path)
  else flat_map (fun dir => candidates env (Path.Join dir path)) (searchDirs env start).

(** The key under which [resolve] files the request. *)
Definition requestKey (caller : option string) (origPath : string) : string :=
  Path.Join (startDir caller origPath) (filepathClean origPath).

(** [c] cannot be loaded in [s]: it is not cached and the provider has
    no program for it. *)
Definition absent (env : Env) (s : State) (c : string) : Prop :=
  modules s !! c = None /\ exists e, getCompiledSource env c = Err e.

(** ** Relations between states *)

(** How often the native loader registered as [name] was invoked. *)
Fixpoint nativeRuns (name : string) (t : list Event) : nat :=
  match t with
  | [] => 0
  | EvNative n _ :: t' => (if String.eqb n name then 1 else 0) + nativeRuns name t'
  | _ :: t' => nativeRuns name t'
  end.

(** [s'] keeps every cache entry of [s], and no loader ran between [s]
    and [s'] under a name that [s] already had a module for. *)
Record extends (s s' : State) : Prop := mkExtends {
  ext_modules : modules s ⊆ modules s';
  ext_nodeModules : nodeModules s ⊆ nodeModules s';
  ext_next : next s <= next s';
  ext_native : forall name,
    is_Some (modules s !! name) ->
    nativeRuns name (trace s') = nativeRuns name (trace s)
}.

(** Between [s] and [s'] the loader of a name ran at most once, and
    only for a name without a module in [s], leaving one in [s']. *)
Record onceEach (s s' : State) : Prop := mkOnceEach {
  once_mono : forall name, nativeRuns name (trace s) <= nativeRuns name (trace s');
  once_bound : forall name,
    modules s !! name = None ->
    nativeRuns name (trace s') <= S (nativeRuns name (trace s));
  once_filed : forall name,
    nativeRuns name (trace s) < nativeRuns name (trace s') ->
    is_Some (modules s' !! name)
}.

Definition steps (s s' : State) : Prop := extends s s' /\ onceEach s s'.

Definition stepping (req : RequireFn) : Prop :=
  forall caller spec s s' r, req caller spec s = Some (s', r) -> steps s s'.

Definition msteps {A : Type} (m : M A) : Prop :=
  forall s s' r, m s = Some (s', r) -> steps s s'.

(** No loader has run twice, and each one that ran left a module. *)
Definition loadedOnce (s : State) : Prop :=
  forall name,
    nativeRuns name (trace s) <= 1
    /\ (nativeRuns name (trace s) = 1 -> is_Some (modules s !! name)).

(** [s2] is reached from [s1] by further [require] calls. *)
Inductive later (env : Env) : State -> State -> Prop :=
| later_refl s : later env s s
| later_step s1 s2 s3 n caller spec r :
    later env s1 s2 ->
    require env n caller spec s2 = Some (s3, r) ->
    later env s1 s3.

(** A [require], or a computation, that only extends the caches. *)
Definition preserves (req : RequireFn) : Prop :=
  forall caller spec s s' r, req caller spec s = Some (s', r) -> extends s s'.

Definition mextends {A : Type} (m : M A) : Prop :=
  forall s s' r, m s = Some (s', r) -> extends s s'.

(** A computation whose successful result is cached under one of [cs]. *)
Definition cachedAmong (cs : list string) (m : M Handle) : Prop :=
  forall s s' h, m s = Some (s', Ok h) -> exists c, In c cs /\ modules s' !! c = Some h.


(** [s'] has the caches of [s]. *)
Definition unchanged (s s' : State) : Prop :=
  modules s' = modules s /\ nodeModules s' = nodeModules s.

(** Every module in a cache is an object the runtime has created. *)
Definition allocated (s : State) : Prop :=
  (forall k h, modules s !! k = Some h -> h < next s)
  /\ (forall k h, nodeModules s !! k = Some h -> h < next s).

(** A computation that keeps [allocated] and returns a created object. *)
Definition mallocated {A : Type} (bound : A -> State -> Prop) (m : M A) : Prop :=
  forall s s' r, allocated s -> m s = Some (s', r) ->
    allocated s' /\ forall a, r = Ok a -> bound a s'.

Definition created (h : Handle) (s : State) : Prop := h < next s.

Definition allocating (req : RequireFn) : Prop :=
  forall caller spec, mallocated created (req caller spec).

(** The state in which [loadModule] hands a fresh module to its body. *)
Definition pending (path : string) (s : State) : State :=
  log (EvRun path (next s))
    (log (EvCompile path)
       (set_modules (insert path (next s)) (snd (createModuleObject s)))).

(** The state in which [loadNative] hands a fresh module to its loader. *)
Definition pendingNative (path : string) (s : State) : State :=
  log (EvNative path (next s))
    (set_modules (insert path (next s)) (snd (createModuleObject s))).

(** ** Concrete registries *)

(** A source provider over a finite set of files. *)
Definition files (l : list (string * Program)) (p : string) : result Program :=
  match list_to_map (M := gmap string Program) l !! p with
  | Some prg => Ok prg
  | None => Err (SourceError p)
  end.

Definition sources (l : list (string * string)) (p : string) : result string :=
  match list_to_map (M := gmap string string) l !! p with
  | Some buf => Ok buf
  | None => Err (SourceError p)
  end.

(** A registry without native modules, global folders or manifests. *)
Definition plainEnv (l : list (string * Program)) : Env :=
  mkEnv ∅ ∅ [] (sources []) (files l) (fun _ => None).


(** A module that requires itself under its extension-less name and
    then throws. *)
Definition envCyclicThrow : Env :=
  plainEnv [("/a.js", PrgFunction [OpRequire "./a"; OpThrow (VString "boom")])].

(** [x/a.js] requires [../a], which is [a.js]. *)
Definition envShadow : Env :=
  plainEnv [("x/a.js", PrgFunction [OpRequire "../a"]); ("a.js", PrgFunction [])].


(** A module that requires itself in the middle of its body. *)
Definition envCycle : Env :=
  plainEnv [("/a.js", PrgFunction [OpExport "x" (VNumber 1); OpRequire "./a.js"; OpExport "y" (VNumber 2)])].

(** [x/a.js] requires [../a.js], which is [a.js], and then itself. *)
Definition envCycleShadow : Env :=
  plainEnv [("x/a.js", PrgFunction [OpRequire "../a.js"; OpRequire "./a.js"]);
            ("a.js", PrgFunction [])].

(** A package [pkg] whose manifest names [lib/main] as its entry. *)
Definition envPackage : Env :=
  mkEnv ∅ ∅ ["/global"]
    (sources [("/app/node_modules/pkg/package.json", "lib/main")])
    (files [("/app/node_modules/pkg/lib/main.js", PrgFunction [OpExport "ok" (VNumber 1)])])
    (fun buf => Some buf).

(** A native module [a/b] and a file [a/b.js] that requires it. *)
Definition envNativeWrapper : Env :=
  mkEnv ∅ {[ "a/b" := [NExport "native" (VNumber 1)] ]} []
    (sources []) (files [("a/b.js", PrgFunction [OpRequire "a/b"])]) (fun _ => None).

(** A native module whose loader requires the module itself. *)
Definition envNativeSelf : Env :=
  mkEnv {[ "util" := [NRequire "./util"; NExport "inspect" (VNumber 1)] ]} ∅ []
    (sources []) (files []) (fun _ => None).

(** * Properties *)

(** ** Paths *)

Section PathFacts.
Import Path.

Lemma length_append (a b : string) :
  String.length (a +:+ b) = String.length a + String.length b.
Proof. induction a as [|c a IH]; simpl; [reflexivity | now rewrite IH]. Qed.

Lemma split_slash_nonempty (s : string) : split_slash s <> [].
Proof.
  destruct s as [|c s]; simpl; [discriminate|].
  destruct (Ascii.eqb c "/"); [discriminate|].
  destruct (split_slash s); discriminate.
Qed.

Lemma weight_split_slash (s : string) :
  weight (split_slash s) = S (String.length s).
Proof.
  induction s as [|c s IH]; simpl; [reflexivity|].
  destruct (Ascii.eqb c "/"); simpl; [now rewrite IH|].
  destruct (split_slash s) as [|x xs] eqn:E.
  - now destruct (split_slash_nonempty s).
  - simpl in *. lia.
Qed.

Lemma contrib_le_weight (l : list string) : contrib l <= weight l.
Proof.
  induction l as [|c l IH]; simpl; [lia|].
  destruct (String.eqb c ""); lia.
Qed.

Lemma clean_step_weight (rt : bool) (st : list string) (c : string) :
  weight (clean_step rt st c)
  <= weight st + (if String.eqb c "" then 0 else S (String.length c)).
Proof.
  unfold clean_step.
  destruct (String.eqb c "") eqn:E0; [lia|].
  destruct (String.eqb c "."); [lia|].
  destruct (String.eqb c "..").
  - destruct st as [|top rest]; [destruct rt; simpl; lia|].
    destruct (String.eqb top ".."); [destruct rt|]; simpl; lia.
  - simpl. lia.
Qed.

Lemma fold_clean_weight (rt : bool) (cs st : list string) :
  weight (fold_left (clean_step rt) cs st) <= weight st + contrib cs.
Proof.
  revert st. induction cs as [|c cs IH]; intros st; simpl; [lia|].
  pose proof (IH (clean_step rt st c)). pose proof (clean_step_weight rt st c). lia.
Qed.

Lemma weight_app (l1 l2 : list string) : weight (l1 ++ l2) = weight l1 + weight l2.
Proof. induction l1 as [|c l1 IH]; simpl; [reflexivity | rewrite IH; lia]. Qed.

Lemma weight_rev (l : list string) : weight (rev l) = weight l.
Proof.
  induction l as [|c l IH]; simpl; [reflexivity|].
  rewrite weight_app, IH. simpl. lia.
Qed.

Lemma length_join_slash (l : list string) :
  l <> [] -> S (String.length (join_slash l)) = weight l.
Proof.
  induction l as [|x l IH]; [congruence|]. intros _.
  destruct l as [|y l]; [simpl; lia|].
  change (join_slash (x :: y :: l)) with (x +:+ "/" +:+ join_slash (y :: l)).
  rewrite !length_append. change (weight (x :: y :: l)) with (S (String.length x) + weight (y :: l)).
  rewrite <- IH by discriminate. simpl. lia.
Qed.

Lemma length_join_slash_le (l : list string) :
  String.length (join_slash l) <= weight l.
Proof.
  destruct l as [|x l]; [simpl; lia|].
  pose proof (length_join_slash (x :: l) ltac:(discriminate)). lia.
Qed.

(** [Clean] never lengthens a non-empty path. *)
Lemma Clean_length (s : string) :
  s <> "" -> String.length (Clean s) <= String.length s.
Proof.
  intros Hs. unfold Clean.
  destruct (String.eqb_spec s ""); [contradiction|].
  unfold clean_elems.
  set (st := fold_left (clean_step (rooted s)) (split_slash s) []).
  pose proof (fold_clean_weight (rooted s) (split_slash s) []) as Hw. fold st in Hw.
  simpl in Hw.
  destruct s as [|c s]; [contradiction|]. simpl rooted in *.
  destruct (Ascii.eqb c "/") eqn:Ec.
  - (* rooted: the first element is empty *)
    simpl split_slash in Hw. rewrite Ec in Hw. simpl contrib in Hw.
    pose proof (contrib_le_weight (split_slash s)).
    rewrite weight_split_slash in *.
    rewrite length_append. simpl.
    destruct (rev st) as [|x l] eqn:Er.
    + simpl. lia.
    + pose proof (length_join_slash (x :: l) ltac:(discriminate)) as Hj.
      assert (weight (x :: l) = weight st) by (rewrite <- Er; apply weight_rev). lia.
  - pose proof (contrib_le_weight (split_slash (String c s))).
    rewrite weight_split_slash in *.
    destruct (rev st) as [|x l] eqn:Er.
    + simpl. lia.
    + pose proof (length_join_slash (x :: l) ltac:(discriminate)) as Hj.
      assert (weight (x :: l) = weight st) by (rewrite <- Er; apply weight_rev).
      destruct (String.eqb (join_slash (x :: l)) ""); simpl in *; lia.
Qed.

Lemma dir_prefix_no_slash (s : string) : has_slash s = false -> dir_prefix s = "".
Proof. destruct s as [|c s]; simpl; [reflexivity|]. now intros ->. Qed.

Lemma dir_prefix_slash (s : string) :
  has_slash s = true ->
  exists y, dir_prefix s = y +:+ "/" /\ String.length y < String.length s.
Proof.
  induction s as [|c s IH]; [discriminate|]. intros H.
  change (dir_prefix (String c s)) with
    (if has_slash (String c s) then String c (dir_prefix s) else "").
  rewrite H. destruct (has_slash s) eqn:Hs.
  - destruct (IH eq_refl) as (y & -> & Hy). exists (String c y). simpl. split; [reflexivity | lia].
  - rewrite (dir_prefix_no_slash s Hs). simpl in H. rewrite Hs, orb_false_r in H.
    apply Ascii.eqb_eq in H as ->. exists "". simpl. split; [reflexivity | lia].
Qed.

Lemma split_slash_snoc (y : string) : split_slash (y +:+ "/") = (split_slash y ++ [""])%list.
Proof.
  induction y as [|c y IH]; [reflexivity|]. simpl.
  destruct (Ascii.eqb c "/"); rewrite IH; [reflexivity|].
  destruct (split_slash y) as [|x xs] eqn:E; [now destruct (split_slash_nonempty y)|].
  reflexivity.
Qed.

(** A trailing separator does not change what [Clean] returns. *)
Lemma Clean_snoc_slash (y : string) : y <> "" -> Clean (y +:+ "/") = Clean y.
Proof.
  intros Hy. unfold Clean, clean_elems. rewrite split_slash_snoc, fold_left_app.
  destruct y as [|c y]; [contradiction|]. reflexivity.
Qed.

Lemma Dir_no_slash (s : string) : has_slash s = false -> Dir s = ".".
Proof. intros H. unfold Dir. now rewrite dir_prefix_no_slash. Qed.

Lemma Dir_slash (s : string) :
  has_slash s = true ->
  Dir s = "/" \/ String.length (Dir s) < String.length s.
Proof.
  intros H. destruct (dir_prefix_slash s H) as (y & Hy & Hlen). unfold Dir. rewrite Hy.
  destruct y as [|c y]; [left; reflexivity|]. right.
  rewrite Clean_snoc_slash by discriminate.
  pose proof (Clean_length (String c y) ltac:(discriminate)). lia.
Qed.

Lemma has_slash_length1 (s : string) :
  has_slash s = true -> String.length s <= 1 -> s = "/".
Proof.
  destruct s as [|c [|d s]]; simpl; [discriminate | | lia].
  rewrite orb_false_r. now intros ->%Ascii.eqb_eq.
Qed.

Lemma height_bound (s : string) : height s <= S (String.length s).
Proof.
  unfold height. destruct (String.eqb s "."); [lia|]. destruct (has_slash s); lia.
Qed.

(** Each step of the ascent strictly lowers [height]. *)
Lemma height_Dir (s : string) : Dir s <> s -> height (Dir s) < height s.
Proof.
  intros Hne. destruct (has_slash s) eqn:Hs.
  - assert (height s = S (String.length s)) as ->.
    { unfold height. rewrite Hs. destruct (String.eqb_spec s "."); [now subst|reflexivity]. }
    destruct (Dir_slash s Hs) as [E|Hlt].
    + rewrite E. change (height "/") with 2.
      destruct (Nat.le_gt_cases (String.length s) 1) as [Hl|Hl]; [|lia].
      apply has_slash_length1 in Hl; [congruence | assumption].
    + pose proof (height_bound (Dir s)). lia.
  - rewrite Dir_no_slash in * by assumption. unfold height at 2. rewrite Hs.
    destruct (String.eqb_spec s "."); [congruence|]. change (height ".") with 0. lia.
Qed.

Lemma reachesTop_height (n : nat) (s : string) : height s < n -> reachesTop n s = true.
Proof.
  revert s. induction n as [|n IH]; intros s H; [lia|]. simpl.
  destruct (String.eqb s ".."); [reflexivity|].
  destruct (String.eqb_spec (Dir s) s) as [|Hne]; [reflexivity|]. simpl.
  apply IH. pose proof (height_Dir s Hne). lia.
Qed.

(** The ascent from any directory leaves the loop within its bound. *)
Lemma ascent_terminates (start : string) : reachesTop (ascentBound start) start = true.
Proof.
  apply reachesTop_height. pose proof (height_bound start). unfold ascentBound. lia.
Qed.

Lemma reachesTop_mono (n m : nat) (s : string) :
  reachesTop n s = true -> n <= m -> reachesTop m s = true.
Proof.
  revert m s. induction n as [|n IH]; intros m s H Hle; [discriminate|].
  destruct m as [|m]; [lia|]. simpl in *.
  destruct (String.eqb s ".."); [reflexivity|].
  destruct (String.eqb (Dir s) s); [reflexivity|]. simpl in *.
  apply IH; [assumption | lia].
Qed.

Lemma ancestorsN_enough (n m : nat) (s : string) :
  reachesTop n s = true -> n <= m -> ancestorsN m s = ancestorsN n s.
Proof.
  revert m s. induction n as [|n IH]; intros m s H Hle; [discriminate|].
  destruct m as [|m]; [lia|]. simpl in *.
  destruct (String.eqb s ".."); [reflexivity|].
  destruct (String.eqb (Dir s) s); [reflexivity|]. simpl in *.
  f_equal. apply IH; [assumption | lia].
Qed.

Lemma ancestorsN_S (n : nat) (s : string) :
  ancestorsN (S n) s =
  s :: (if String.eqb s ".." then []
        else if String.eqb (Dir s) s then [] else ancestorsN n (Dir s)).
Proof. reflexivity. Qed.

(** The ascent list, one step at a time. *)
Lemma ancestors_unfold (start : string) :
  ancestors start =
  start :: (if String.eqb start ".." then []
            else if String.eqb (Dir start) start then []
            else ancestors (Dir start)).
Proof.
  unfold ancestors. unfold ascentBound at 1.
  replace (String.length start + 2) with (S (S (String.length start))) by lia.
  rewrite ancestorsN_S.
  destruct (String.eqb start ".."); [reflexivity|].
  destruct (String.eqb_spec (Dir start) start) as [|Hne]; [reflexivity|].
  f_equal.
  pose proof (height_Dir start Hne). pose proof (height_bound start).
  pose proof (ascent_terminates (Dir start)).
  destruct (Nat.le_gt_cases (ascentBound (Dir start)) (S (String.length start))).
  - now apply ancestorsN_enough.
  - symmetry. apply ancestorsN_enough; [|lia].
    apply reachesTop_height. lia.
Qed.

End PathFacts.

Example Clean_ex1 : map Path.Clean ["a//b/./c/.."; "../../a"; "a/../.."; "/../a"; ""; "./x"; "/"; "a/"; "/a/b/../../.."]
  = ["a/b"; "../../a"; ".."; "/a"; "."; "x"; "/"; "a"; "/"].
Proof. vm_compute. reflexivity. Qed.

Example Dir_ex1 : map Path.Dir ["/a/b.js"; "a.js"; "x/a.js"; "/"; "."; ".."; "../a"; "/a"; ""; "a/b/"]
  = ["/a"; "."; "x"; "/"; "."; "."; ".."; "/"; "."; "a/b"].
Proof. vm_compute. reflexivity. Qed.

Example Base_ex1 : map Path.Base ["/a/node_modules"; "node_modules/"; "/"; ""; "a"; "//"; "a/b.js"]
  = ["node_modules"; "node_modules"; "/"; "."; "a"; "/"; "b.js"].
Proof. vm_compute. reflexivity. Qed.

Example Join_ex1 : map (fun '(a, b) => Path.Join a b) [("/app/src", "../util"); (".", "a"); ("x", "../a"); ("", "b"); ("", ""); ("a", ""); ("/", "a"); (".", "index.js")]
  = ["/app/util"; "a"; "a"; "b"; ""; "a"; "/a"; "index.js"].
Proof. vm_compute. reflexivity. Qed.

Example ancestors_ex1 :
  map ancestors ["/app/src"; "a/node_modules/b"; "../x"; "."]
  = [["/app/src"; "/app"; "/"]; ["a/node_modules/b"; "a/node_modules"; "a"; "."];
     ["../x"; ".."]; ["."]].
Proof. vm_compute. reflexivity. Qed.

Example nodeModulesDir_ex1 :
  map nodeModulesDir ["a/node_modules/b"; "a/node_modules"; "/"; "."]
  = ["a/node_modules/b/node_modules"; "a/node_modules"; "/node_modules"; "node_modules"].
Proof. vm_compute. reflexivity. Qed.

(** ** State primitives *)

Lemma nativeRuns_app (name : string) (t1 t2 : list Event) :
  nativeRuns name (t1 ++ t2) = nativeRuns name t1 + nativeRuns name t2.
Proof.
  induction t1 as [|e t1 IH]; simpl; [reflexivity|].
  destruct e; simpl; rewrite ?IH; lia.
Qed.

Lemma createModuleObject_fst (s : State) : fst (createModuleObject s) = next s.
Proof. reflexivity. Qed.

Lemma createModuleObject_eq (s : State) :
  createModuleObject s = (next s, snd (createModuleObject s)).
Proof. reflexivity. Qed.

Lemma createModuleObject_heap_module (s : State) :
  heap (snd (createModuleObject s)) !! next s
  = Some {[ "exports" := VObject (S (next s)) ]}.
Proof.
  simpl. rewrite lookup_insert_eq.
  rewrite lookup_insert_ne by lia. rewrite lookup_insert_eq. reflexivity.
Qed.

Lemma createModuleObject_heap_exports (s : State) :
  heap (snd (createModuleObject s)) !! S (next s) = Some ∅.
Proof.
  simpl. rewrite lookup_insert_ne by lia. now rewrite lookup_insert_eq.
Qed.

Lemma createModuleObject_exports (s : State) :
  object_get (next s) "exports" (snd (createModuleObject s)) = VObject (S (next s)).
Proof.
  unfold object_get. rewrite createModuleObject_heap_module. simpl.
  now rewrite lookup_singleton_eq.
Qed.

(** ** Executions only extend the caches *)

Lemma extends_refl (s : State) : extends s s.
Proof. split; auto. Qed.

Lemma extends_trans (s1 s2 s3 : State) : extends s1 s2 -> extends s2 s3 -> extends s1 s3.
Proof.
  intros [Hm1 Hn1 Hx1 Hr1] [Hm2 Hn2 Hx2 Hr2]. split.
  - etransitivity; eassumption.
  - etransitivity; eassumption.
  - lia.
  - intros name [h Hh]. rewrite Hr2, Hr1; eauto.
    exists h. eapply lookup_weaken; eassumption.
Qed.

Lemma extends_lookup (s s' : State) (k : string) (h : Handle) :
  extends s s' -> modules s !! k = Some h -> modules s' !! k = Some h.
Proof. intros [Hm _ _ _] H. eapply lookup_weaken; eassumption. Qed.

Lemma extends_lookup_node (s s' : State) (k : string) (h : Handle) :
  extends s s' -> nodeModules s !! k = Some h -> nodeModules s' !! k = Some h.
Proof. intros [_ Hn _ _] H. eapply lookup_weaken; eassumption. Qed.

Lemma extends_lookup_None (s s' : State) (k : string) :
  extends s s' -> modules s' !! k = None -> modules s !! k = None.
Proof.
  intros He H. destruct (modules s !! k) eqn:E; [|reflexivity].
  rewrite (extends_lookup _ _ _ _ He E) in H. discriminate.
Qed.

Lemma extends_lookup_node_None (s s' : State) (k : string) :
  extends s s' -> nodeModules s' !! k = None -> nodeModules s !! k = None.
Proof.
  intros He H. destruct (nodeModules s !! k) eqn:E; [|reflexivity].
  rewrite (extends_lookup_node _ _ _ _ He E) in H. discriminate.
Qed.

(** A step that changes neither cache nor runs a loader. *)
Lemma extends_same (s s' : State) :
  modules s' = modules s -> nodeModules s' = nodeModules s ->
  next s <= next s' ->
  (forall name, nativeRuns name (trace s') = nativeRuns name (trace s)) ->
  extends s s'.
Proof. intros Hm Hn Hx Hr. split; [rewrite Hm | rewrite Hn | |]; auto. Qed.

Lemma extends_object_set (o : Handle) (k : string) (v : Value) (s : State) :
  extends s (object_set o k v s).
Proof. apply extends_same; auto. Qed.

Lemma extends_log_source (p : string) (s : State) : extends s (log (EvSource p) s).
Proof.
  apply extends_same; auto. intros name. simpl. rewrite nativeRuns_app. simpl. lia.
Qed.

Lemma extends_log_compile (p : string) (s : State) : extends s (log (EvCompile p) s).
Proof.
  apply extends_same; auto. intros name. simpl. rewrite nativeRuns_app. simpl. lia.
Qed.

Lemma extends_log_run (p : string) (h : Handle) (s : State) : extends s (log (EvRun p h) s).
Proof.
  apply extends_same; auto. intros name. simpl. rewrite nativeRuns_app. simpl. lia.
Qed.

(** A key that was free in [s] may be written, and removed again, at
    any later point. *)
Lemma extends_insert (s s2 : State) (p : string) (h : Handle) :
  extends s s2 -> modules s !! p = None -> extends s (set_modules (insert p h) s2).
Proof.
  intros [Hm Hn Hx Hr] Hp. split; simpl; auto.
  apply map_subseteq_spec. intros k v Hk.
  destruct (decide (p = k)) as [->|Hne]; [congruence|].
  rewrite lookup_insert_ne by assumption. eapply lookup_weaken; eassumption.
Qed.

Lemma extends_delete (s s2 : State) (p : string) :
  extends s s2 -> modules s !! p = None -> extends s (set_modules (delete p) s2).
Proof.
  intros [Hm Hn Hx Hr] Hp. split; simpl; auto.
  apply map_subseteq_spec. intros k v Hk.
  destruct (decide (p = k)) as [->|Hne]; [congruence|].
  rewrite lookup_delete_ne by assumption. eapply lookup_weaken; eassumption.
Qed.

Lemma extends_insert_node (s s2 : State) (p : string) (h : Handle) :
  extends s s2 -> nodeModules s !! p = None -> extends s (set_nodeModules (insert p h) s2).
Proof.
  intros [Hm Hn Hx Hr] Hp. split; simpl; auto.
  apply map_subseteq_spec. intros k v Hk.
  destruct (decide (p = k)) as [->|Hne]; [congruence|].
  rewrite lookup_insert_ne by assumption. eapply lookup_weaken; eassumption.
Qed.

(** The module object [loadModule] and [loadNative] create and file
    under a free key, before anything else runs. *)
Lemma extends_create (s s2 s3 : State) (p : string) (h : Handle) :
  modules s !! p = None ->
  modules s2 = <[p := h]> (modules s) ->
  nodeModules s2 = nodeModules s ->
  next s <= next s2 ->
  (forall name, name <> p -> nativeRuns name (trace s2) = nativeRuns name (trace s)) ->
  extends s2 s3 ->
  extends s s3.
Proof.
  intros Hp Em En Ex Ht [Hm Hn Hx Hr]. split.
  - etransitivity; [|exact Hm]. rewrite Em. now apply insert_subseteq.
  - now rewrite <- En.
  - lia.
  - intros name [h' Hh]. assert (name <> p) by congruence.
    rewrite Hr; [now apply Ht|].
    exists h'. rewrite Em. now rewrite lookup_insert_ne by congruence.
Qed.

Lemma orelse_extends {A : Type} (m k : M A) :
  mextends m -> mextends k -> mextends (orelse m k).
Proof.
  intros Hm Hk s s' r. unfold orelse.
  destruct (m s) as [[s1 [a|e]]|] eqn:E; intros H.
  - injection H as <- <-. eapply Hm; eassumption.
  - eapply extends_trans; [eapply Hm | eapply Hk]; eassumption.
  - discriminate.
Qed.

Lemma fail_extends {A : Type} (e : error) : mextends (@fail A e).
Proof. intros s s' r [= <- <-]. apply extends_refl. Qed.

Section Preservation.
Variable env : Env.
Variable req : RequireFn.
Hypothesis Hreq : preserves req.

Lemma run_ops_extends (path : string) (jsModule : Handle) (jsExports : Value) (ops : list Op) :
  mextends (run_ops req path jsModule jsExports ops).
Proof.
  induction ops as [|op ops IH]; intros s s' r; simpl.
  - intros [= <- <-]. apply extends_refl.
  - destruct op as [k v|v|spec|spec|v].
    + destruct jsExports; try (intros [= <- <-]; apply extends_refl).
      intros H. eapply extends_trans; [apply extends_object_set | eapply IH; eassumption].
    + intros H. eapply extends_trans; [apply extends_object_set | eapply IH; eassumption].
    + destruct (req (Some path) spec s) as [[s1 [h|e]]|] eqn:E; intros H.
      * eapply extends_trans; [eapply Hreq | eapply IH]; eassumption.
      * injection H as <- <-. eapply Hreq; eassumption.
      * discriminate.
    + destruct (req (Some path) spec s) as [[s1 r1]|] eqn:E; intros H; [|discriminate].
      eapply extends_trans; [eapply Hreq | eapply IH]; eassumption.
    + intros [= <- <-]. apply extends_refl.
Qed.

Lemma run_native_extends (caller : option string) (module : Handle) (ops : list NativeOp)
    (s s' : State) :
  run_native req caller module ops s = Some s' -> extends s s'.
Proof.
  revert s. induction ops as [|op ops IH]; intros s; simpl.
  - intros [= <-]. apply extends_refl.
  - destruct op as [k v|v|spec].
    + destruct (object_get module "exports" s); intros H; try (now apply IH).
      apply IH in H. eapply extends_trans; [|exact H]. apply extends_object_set.
    + intros H. apply IH in H. eapply extends_trans; [|exact H]. apply extends_object_set.
    + destruct (req caller spec s) as [[s1 r1]|] eqn:E; intros H; [|discriminate].
      eapply extends_trans; [eapply Hreq; eassumption | now apply IH].
Qed.

Lemma loadModuleFile_extends (path : string) (jsModule : Handle) :
  mextends (loadModuleFile env req path jsModule).
Proof.
  intros s s' r. unfold loadModuleFile.
  destruct (getCompiledSource env path) as [[v|v|body]|e].
  1,2,4: intros [= <- <-]; apply extends_log_compile.
  intros H. eapply extends_trans; [apply extends_log_compile|].
  eapply extends_trans; [apply extends_log_run|].
  eapply run_ops_extends; eassumption.
Qed.

Lemma loadModule_extends (path : string) : mextends (loadModule env req path).
Proof.
  intros s s' r. unfold loadModule.
  destruct (modules s !! path) as [h|] eqn:Hp.
  - intros [= <- <-]. apply extends_refl.
  - rewrite createModuleObject_eq.
    destruct (loadModuleFile _ _ _ _ _) as [[s3 [u|e]]|] eqn:E; intros H; [| |discriminate];
      injection H as <- <-;
      apply loadModuleFile_extends in E;
      assert (He : extends s s3)
        by (refine (extends_create s (set_modules (insert path (next s)) (snd (createModuleObject s)))
                      s3 path (next s) Hp eq_refl eq_refl _ _ E); [simpl; lia | reflexivity]).
    + assumption.
    + now apply extends_delete.
Qed.

Lemma loadAsFile_extends (path : string) : mextends (loadAsFile env req path).
Proof. repeat apply orelse_extends; apply loadModule_extends. Qed.

Lemma loadIndex_extends (path : string) : mextends (loadIndex env req path).
Proof. repeat apply orelse_extends; apply loadModule_extends. Qed.

Lemma loadAsDirectory_extends (path : string) : mextends (loadAsDirectory env req path).
Proof.
  intros s s' r. unfold loadAsDirectory. intros H.
  eapply extends_trans; [apply (extends_log_source (Path.Join path "package.json"))|].
  destruct (getSource env _) as [buf|e]; [|eapply loadIndex_extends; eassumption].
  destruct (unmarshalMain env buf) as [main|]; [|eapply loadIndex_extends; eassumption].
  destruct (String.eqb main ""); [eapply loadIndex_extends; eassumption|].
  eapply orelse_extends; [apply loadAsFile_extends | apply loadIndex_extends | eassumption].
Qed.

Lemma loadAsFileOrDirectory_extends (path : string) :
  mextends (loadAsFileOrDirectory env req path).
Proof. apply orelse_extends; [apply loadAsFile_extends | apply loadAsDirectory_extends]. Qed.

Lemma loadGlobalFolders_extends (path : string) (dirs : list string) (k : M Handle) :
  mextends k -> mextends (loadGlobalFolders env req path dirs k).
Proof.
  intros Hk. induction dirs as [|dir dirs IH]; simpl; [assumption|].
  apply orelse_extends; [apply loadAsFileOrDirectory_extends | assumption].
Qed.

Lemma loadAscent_extends (n : nat) (path start : string) :
  mextends (loadAscent env req n path start).
Proof.
  revert start. induction n as [|n IH]; intros start; simpl.
  - intros s s' r [=].
  - apply orelse_extends; [apply loadAsFileOrDirectory_extends|].
    destruct (String.eqb start ".."); [apply fail_extends|].
    destruct (String.eqb _ start); [apply fail_extends | apply IH].
Qed.

Lemma loadNodeModules_extends (path start : string) :
  mextends (loadNodeModules env req path start).
Proof. apply loadGlobalFolders_extends, loadAscent_extends. Qed.

Lemma loadNative_extends (caller : option string) (path : string) :
  mextends (loadNative env req caller path).
Proof.
  intros s s' r. unfold loadNative.
  destruct (modules s !! path) as [h|] eqn:Hp.
  - intros [= <- <-]. apply extends_refl.
  - destruct (nativeLoader env path) as [ldr|]; [|intros [= <- <-]; apply extends_refl].
    rewrite createModuleObject_eq.
    destruct (run_native _ _ _ _ _) as [s3|] eqn:E; intros H; [|discriminate].
    injection H as <- <-. apply run_native_extends in E.
    refine (extends_create s (pendingNative path s) s3 path (next s) Hp eq_refl eq_refl _ _ E);
      [simpl; lia|].
    intros name Hne. simpl. rewrite nativeRuns_app. simpl.
    destruct (String.eqb_spec path name); [congruence | lia].
Qed.

Lemma resolve_extends : preserves (resolve env req).
Proof.
  intros caller spec s s' r. unfold resolve.
  destruct (String.eqb (filepathClean spec) ""); [intros [= <- <-]; apply extends_refl|].
  destruct (loadNative env req caller (filepathClean spec) s) as [[s1 [h|e]]|] eqn:E;
    [| |discriminate].
  - intros [= <- <-]. eapply loadNative_extends; eassumption.
  - apply loadNative_extends in E.
    destruct (isRelative spec).
    + destruct (modules s1 !! _) as [h|] eqn:Hp; [now intros [= <- <-]|].
      destruct (loadAsFileOrDirectory _ _ _ _) as [[s2 [h|e2]]|] eqn:E2; intros H;
        [| |discriminate]; injection H as <- <-;
        apply loadAsFileOrDirectory_extends in E2;
        pose proof (extends_trans _ _ _ E E2); [|assumption].
      apply extends_insert; [assumption|].
      exact (extends_lookup_None _ _ _ E Hp).
    + destruct (nodeModules s1 !! _) as [h|] eqn:Hp; [now intros [= <- <-]|].
      destruct (loadNodeModules _ _ _ _ _) as [[s2 [h|e2]]|] eqn:E2; intros H;
        [| |discriminate]; injection H as <- <-;
        apply loadNodeModules_extends in E2;
        pose proof (extends_trans _ _ _ E E2); [|assumption].
      apply extends_insert_node; [assumption|].
      exact (extends_lookup_node_None _ _ _ E Hp).
Qed.

End Preservation.

Lemma require_extends (env : Env) (n : nat) : preserves (require env n).
Proof.
  induction n as [|n IH]; [intros caller spec s s' r [=]|].
  apply resolve_extends, IH.
Qed.

Lemma later_extends (env : Env) (s1 s2 : State) : later env s1 s2 -> extends s1 s2.
Proof.
  induction 1 as [|s1 s2 s3 n caller spec r _ IH H]; [apply extends_refl|].
  eapply extends_trans; [exact IH | eapply require_extends; eassumption].
Qed.

(** ** New module objects are new *)

Lemma allocated_init : allocated init.
Proof. split; intros k h H; simpl in H; rewrite lookup_empty in H; discriminate. Qed.

Lemma allocated_fresh (s : State) (k : string) :
  allocated s -> modules s !! k <> Some (next s) /\ nodeModules s !! k <> Some (next s).
Proof. intros [Hm Hn]. split; intros H; [apply Hm in H | apply Hn in H]; lia. Qed.

Lemma allocated_same (s s' : State) :
  modules s' = modules s -> nodeModules s' = nodeModules s -> next s <= next s' ->
  allocated s -> allocated s'.
Proof.
  intros Em En Hx [Hm Hn]. split; intros k h H.
  - rewrite Em in H. apply Hm in H. lia.
  - rewrite En in H. apply Hn in H. lia.
Qed.

Lemma allocated_insert (p : string) (h : Handle) (s : State) :
  allocated s -> h < next s -> allocated (set_modules (insert p h) s).
Proof.
  intros [Hm Hn] Hh. split; [|exact Hn]. intros k h' H. simpl in H.
  destruct (decide (p = k)) as [->|Hne].
  - rewrite lookup_insert_eq in H. injection H as <-. exact Hh.
  - rewrite lookup_insert_ne in H by assumption. eapply Hm, H.
Qed.

Lemma allocated_insert_node (p : string) (h : Handle) (s : State) :
  allocated s -> h < next s -> allocated (set_nodeModules (insert p h) s).
Proof.
  intros [Hm Hn] Hh. split; [exact Hm|]. intros k h' H. simpl in H.
  destruct (decide (p = k)) as [->|Hne].
  - rewrite lookup_insert_eq in H. injection H as <-. exact Hh.
  - rewrite lookup_insert_ne in H by assumption. eapply Hn, H.
Qed.

Lemma allocated_delete (p : string) (s : State) :
  allocated s -> allocated (set_modules (delete p) s).
Proof.
  intros [Hm Hn]. split; [|exact Hn]. intros k h H. simpl in H.
  destruct (decide (p = k)) as [->|Hne].
  - rewrite lookup_delete_eq in H. discriminate.
  - rewrite lookup_delete_ne in H by assumption. eapply Hm, H.
Qed.

Lemma allocated_create (p : string) (s : State) :
  allocated s ->
  allocated (set_modules (insert p (next s)) (snd (createModuleObject s))).
Proof.
  intros H. apply allocated_insert; [|simpl; lia].
  revert H. apply allocated_same; simpl; auto.
Qed.

Lemma orelse_allocated (m k : M Handle) :
  mallocated created m -> mallocated created k -> mallocated created (orelse m k).
Proof.
  intros Hm Hk s s' r Ha. unfold orelse.
  destruct (m s) as [[s1 [h|e]]|] eqn:E; intros H.
  - injection H as <- <-. eapply Hm; eassumption.
  - destruct (Hm _ _ _ Ha E) as [Ha1 _]. eapply Hk; eassumption.
  - discriminate.
Qed.

Lemma fail_allocated (e : error) : mallocated created (@fail Handle e).
Proof. intros s s' r Ha [= <- <-]. split; [assumption | discriminate]. Qed.

Section Allocation.
Variable env : Env.
Variable req : RequireFn.
Hypothesis Hreq : preserves req.
Hypothesis Hall : allocating req.

Lemma run_ops_allocated (path : string) (jsModule : Handle) (jsExports : Value)
    (ops : list Op) (s s' : State) (r : result unit) :
  allocated s -> run_ops req path jsModule jsExports ops s = Some (s', r) -> allocated s'.
Proof.
  revert s. induction ops as [|op ops IH]; intros s Ha; simpl.
  - now intros [= <- <-].
  - destruct op as [k v|v|spec|spec|v].
    + destruct jsExports; try (now intros [= <- <-]). apply IH.
      revert Ha. apply allocated_same; auto.
    + apply IH. revert Ha. apply allocated_same; auto.
    + destruct (req (Some path) spec s) as [[s1 [h|e]]|] eqn:E; intros H.
      * eapply IH; [|exact H]. eapply Hall; eassumption.
      * injection H as <- <-. eapply Hall; eassumption.
      * discriminate.
    + destruct (req (Some path) spec s) as [[s1 r1]|] eqn:E; intros H; [|discriminate].
      eapply IH; [|exact H]. eapply Hall; eassumption.
    + now intros [= <- <-].
Qed.

Lemma run_native_allocated (caller : option string) (module : Handle)
    (ops : list NativeOp) (s s' : State) :
  allocated s -> run_native req caller module ops s = Some s' -> allocated s'.
Proof.
  revert s. induction ops as [|op ops IH]; intros s Ha; simpl.
  - now intros [= <-].
  - destruct op as [k v|v|spec].
    + destruct (object_get module "exports" s); now apply IH.
    + now apply IH.
    + destruct (req caller spec s) as [[s1 r1]|] eqn:E; intros H; [|discriminate].
      eapply IH; [|exact H]. eapply Hall; eassumption.
Qed.

Lemma loadModuleFile_allocated (path : string) (jsModule : Handle)
    (s s' : State) (r : result unit) :
  allocated s -> loadModuleFile env req path jsModule s = Some (s', r) -> allocated s'.
Proof.
  intros Ha. unfold loadModuleFile.
  assert (Ha1 : allocated (log (EvCompile path) s))
    by (revert Ha; apply allocated_same; auto).
  destruct (getCompiledSource env path) as [[v|v|body]|e]; try (now intros [= <- <-]).
  apply run_ops_allocated. revert Ha1. apply allocated_same; auto.
Qed.

Lemma loadModule_allocated (path : string) : mallocated created (loadModule env req path).
Proof.
  intros s s' r Ha. unfold loadModule.
  destruct (modules s !! path) as [h|] eqn:Hp.
  - intros [= <- <-]. split; [assumption|]. intros a [= <-]. exact (proj1 Ha _ _ Hp).
  - rewrite createModuleObject_eq.
    destruct (loadModuleFile _ _ _ _ _) as [[s3 [u|e]]|] eqn:E; intros H; [| |discriminate];
      injection H as <- <-;
      pose proof (loadModuleFile_extends env req Hreq _ _ _ _ _ E) as Ext;
      pose proof (loadModuleFile_allocated _ _ _ _ _ (allocated_create path s Ha) E) as Ha3.
    + split; [assumption|]. intros a [= <-]. apply ext_next in Ext. simpl in Ext.
      unfold created. lia.
    + split; [now apply allocated_delete | discriminate].
Qed.

Lemma loadAsFile_allocated (path : string) : mallocated created (loadAsFile env req path).
Proof. repeat apply orelse_allocated; apply loadModule_allocated. Qed.

Lemma loadIndex_allocated (path : string) : mallocated created (loadIndex env req path).
Proof. repeat apply orelse_allocated; apply loadModule_allocated. Qed.

Lemma loadAsDirectory_allocated (path : string) :
  mallocated created (loadAsDirectory env req path).
Proof.
  intros s s' r Ha. unfold loadAsDirectory.
  assert (Ha0 : allocated (log (EvSource (Path.Join path "package.json")) s))
    by (revert Ha; apply allocated_same; auto).
  destruct (getSource env _) as [buf|e]; [|now apply loadIndex_allocated].
  destruct (unmarshalMain env buf) as [main|]; [|now apply loadIndex_allocated].
  destruct (String.eqb main ""); [now apply loadIndex_allocated|].
  now apply orelse_allocated; [apply loadAsFile_allocated | apply loadIndex_allocated|].
Qed.

Lemma loadAsFileOrDirectory_allocated (path : string) :
  mallocated created (loadAsFileOrDirectory env req path).
Proof.
  apply orelse_allocated; [apply loadAsFile_allocated | apply loadAsDirectory_allocated].
Qed.

Lemma loadNodeModules_allocated (path start : string) :
  mallocated created (loadNodeModules env req path start).
Proof.
  unfold loadNodeModules.
  assert (Hk : mallocated created (loadAscent env req (ascentBound start) path start)).
  { generalize (ascentBound start). intros n. revert start.
    induction n as [|n IH]; intros start; simpl; [intros s s' r _ [=]|].
    apply orelse_allocated; [apply loadAsFileOrDirectory_allocated|].
    destruct (String.eqb start ".."); [apply fail_allocated|].
    destruct (String.eqb _ start); [apply fail_allocated | apply IH]. }
  induction (globalFolders env) as [|dir dirs IH]; simpl; [assumption|].
  apply orelse_allocated; [apply loadAsFileOrDirectory_allocated | assumption].
Qed.

Lemma loadNative_allocated (caller : option string) (path : string) :
  mallocated created (loadNative env req caller path).
Proof.
  intros s s' r Ha. unfold loadNative.
  destruct (modules s !! path) as [h|] eqn:Hp.
  - intros [= <- <-]. split; [assumption|]. intros a [= <-]. exact (proj1 Ha _ _ Hp).
  - destruct (nativeLoader env path) as [ldr|];
      [|intros [= <- <-]; split; [assumption | discriminate]].
    rewrite createModuleObject_eq.
    destruct (run_native _ _ _ _ _) as [s3|] eqn:E; intros H; [|discriminate].
    injection H as <- <-.
    pose proof (run_native_extends req Hreq _ _ _ _ _ E) as Ext.
    split.
    + eapply run_native_allocated; [|exact E].
      eapply allocated_same; [| | |apply (allocated_create path s Ha)]; simpl; auto.
    + intros a [= <-]. apply ext_next in Ext. simpl in Ext. unfold created. lia.
Qed.

Lemma resolve_allocated : allocating (resolve env req).
Proof.
  intros caller spec s s' r Ha. unfold resolve.
  destruct (String.eqb (filepathClean spec) "");
    [intros [= <- <-]; split; [assumption | discriminate]|].
  destruct (loadNative env req caller (filepathClean spec) s) as [[s1 [h|e]]|] eqn:E;
    [| |discriminate].
  - intros [= <- <-]. eapply loadNative_allocated; eassumption.
  - destruct (loadNative_allocated _ _ _ _ _ Ha E) as [Ha1 _].
    destruct (isRelative spec).
    + destruct (modules s1 !! _) as [h|] eqn:Hp.
      { intros [= <- <-]. split; [assumption|]. intros a [= <-]. exact (proj1 Ha1 _ _ Hp). }
      destruct (loadAsFileOrDirectory _ _ _ _) as [[s2 [h|e2]]|] eqn:E2; intros H;
        [| |discriminate]; injection H as <- <-;
        destruct (loadAsFileOrDirectory_allocated _ _ _ _ Ha1 E2) as [Ha2 Hb].
      * split; [apply allocated_insert; [assumption | now apply Hb]|].
        intros a [= <-]. now apply Hb.
      * split; [assumption | discriminate].
    + destruct (nodeModules s1 !! _) as [h|] eqn:Hp.
      { intros [= <- <-]. split; [assumption|]. intros a [= <-]. exact (proj2 Ha1 _ _ Hp). }
      destruct (loadNodeModules _ _ _ _ _) as [[s2 [h|e2]]|] eqn:E2; intros H;
        [| |discriminate]; injection H as <- <-;
        destruct (loadNodeModules_allocated _ _ _ _ _ Ha1 E2) as [Ha2 Hb].
      * split; [apply allocated_insert_node; [assumption | now apply Hb]|].
        intros a [= <-]. now apply Hb.
      * split; [assumption | discriminate].
Qed.

End Allocation.

Lemma require_allocated (env : Env) (n : nat) : allocating (require env n).
Proof.
  induction n as [|n IH]; [intros caller spec s s' r _ [=]|].
  apply resolve_allocated; [apply require_extends | exact IH].
Qed.

(** Every state reached from the initial one by [require] calls keeps
    its caches within the created objects: the object a load creates,
    [next s], is not yet the module of any key. *)
Lemma later_allocated (env : Env) (s : State) : later env init s -> allocated s.
Proof.
  intros H. remember init as s0 eqn:E0. induction H as [|s1 s2 s3 n caller spec r _ IH H].
  - subst. apply allocated_init.
  - eapply require_allocated; [apply IH, E0 | exact H].
Qed.

(** ** A native loader runs once *)

Lemma steps_refl (s : State) : steps s s.
Proof.
  split; [apply extends_refl|]. split; intros name; [lia | lia | lia].
Qed.

Lemma steps_trans (s1 s2 s3 : State) : steps s1 s2 -> steps s2 s3 -> steps s1 s3.
Proof.
  intros [E1 [M1 B1 F1]] [E2 [M2 B2 F2]]. split; [eapply extends_trans; eassumption|].
  split; intros name.
  - specialize (M1 name). specialize (M2 name). lia.
  - intros Hn. specialize (M1 name). specialize (M2 name).
    destruct (modules s2 !! name) as [h|] eqn:H2.
    + rewrite (ext_native _ _ E2 name) by eauto. now apply B1.
    + specialize (B1 name Hn). specialize (B2 name H2).
      destruct (Nat.lt_ge_cases (nativeRuns name (trace s1)) (nativeRuns name (trace s2)))
        as [Hlt|Hge]; [|lia].
      apply F1 in Hlt. rewrite H2 in Hlt. now destruct Hlt.
  - intros Hlt. specialize (M1 name). specialize (M2 name).
    destruct (Nat.lt_ge_cases (nativeRuns name (trace s2)) (nativeRuns name (trace s3)))
      as [H23|H23]; [now apply F2|].
    assert (Hlt1 : nativeRuns name (trace s1) < nativeRuns name (trace s2)) by lia.
    destruct (F1 name Hlt1) as [h Hh]. exists h. exact (extends_lookup _ _ _ _ E2 Hh).
Qed.

Lemma steps_same (s s' : State) :
  modules s' = modules s -> nodeModules s' = nodeModules s ->
  next s <= next s' ->
  (forall name, nativeRuns name (trace s') = nativeRuns name (trace s)) ->
  steps s s'.
Proof.
  intros Hm Hn Hx Hr. split; [now apply extends_same|].
  split; intros name; rewrite Hr; lia.
Qed.

Lemma steps_log (e : Event) (s : State) :
  (forall name h, e <> EvNative name h) -> steps s (log e s).
Proof.
  intros He. apply steps_same; auto. intros name. simpl. rewrite nativeRuns_app.
  destruct e; simpl; try lia. now destruct (He name0 module).
Qed.

Lemma steps_insert (s s2 : State) (p : string) (h : Handle) :
  steps s s2 -> modules s !! p = None -> steps s (set_modules (insert p h) s2).
Proof.
  intros [E [M B F]] Hp. split; [now apply extends_insert|].
  split; intros name; simpl; auto.
  intros Hlt. destruct (decide (p = name)) as [->|Hne].
  - rewrite lookup_insert_eq. eauto.
  - rewrite lookup_insert_ne by assumption. now apply F.
Qed.

Lemma steps_insert_node (s s2 : State) (p : string) (h : Handle) :
  steps s s2 -> nodeModules s !! p = None -> steps s (set_nodeModules (insert p h) s2).
Proof.
  intros [E [M B F]] Hp. split; [now apply extends_insert_node|].
  split; intros name; simpl; auto.
Qed.

(** A module object filed under a free key [p], with at most one run
    of the loader of [p], followed by any steps; when no loader ran
    the key may be freed again. *)
Lemma steps_create (s s2 s3 : State) (p : string) (h : Handle) :
  modules s !! p = None ->
  modules s2 = <[p := h]> (modules s) ->
  nodeModules s2 = nodeModules s ->
  next s <= next s2 ->
  (forall name, name <> p -> nativeRuns name (trace s2) = nativeRuns name (trace s)) ->
  nativeRuns p (trace s) <= nativeRuns p (trace s2) <= S (nativeRuns p (trace s)) ->
  steps s2 s3 ->
  steps s s3
  /\ (nativeRuns p (trace s2) = nativeRuns p (trace s) ->
      steps s (set_modules (delete p) s3)).
Proof.
  intros Hp Em En Hx Ht Hpt [E [M B F]].
  pose proof (extends_create s s2 s3 p h Hp Em En Hx Ht E) as E'.
  assert (Hp2 : modules s2 !! p = Some h) by (rewrite Em; apply lookup_insert_eq).
  assert (Hp3 : nativeRuns p (trace s3) = nativeRuns p (trace s2))
    by (apply (ext_native _ _ E); eauto).
  assert (Ho : onceEach s s3).
  { split; intros name.
    - destruct (decide (name = p)) as [->|Hne]; [lia|].
      rewrite <- (Ht name Hne). apply M.
    - intros Hn. destruct (decide (name = p)) as [->|Hne]; [lia|].
      rewrite <- (Ht name Hne). apply B. rewrite Em. now rewrite lookup_insert_ne.
    - intros Hlt. destruct (decide (name = p)) as [->|Hne].
      + exists h. exact (extends_lookup _ _ _ _ E Hp2).
      + apply F. now rewrite (Ht name Hne). }
  split; [split; assumption|]. intros Heq.
  split; [now apply extends_delete|].
  destruct Ho as [M' B' F']. split; intros name; simpl; auto.
  intros Hlt. destruct (decide (p = name)) as [<-|Hne]; [lia|].
  rewrite lookup_delete_ne by assumption. now apply F'.
Qed.

Lemma orelse_steps {A : Type} (m k : M A) : msteps m -> msteps k -> msteps (orelse m k).
Proof.
  intros Hm Hk s s' r. unfold orelse.
  destruct (m s) as [[s1 [a|e]]|] eqn:E; intros H.
  - injection H as <- <-. eapply Hm; eassumption.
  - eapply steps_trans; [eapply Hm | eapply Hk]; eassumption.
  - discriminate.
Qed.

Lemma fail_steps {A : Type} (e : error) : msteps (@fail A e).
Proof. intros s s' r [= <- <-]. apply steps_refl. Qed.

Section Once.
Variable env : Env.
Variable req : RequireFn.
Hypothesis Hreq : stepping req.

Lemma run_ops_steps (path : string) (jsModule : Handle) (jsExports : Value) (ops : list Op) :
  msteps (run_ops req path jsModule jsExports ops).
Proof.
  induction ops as [|op ops IH]; intros s s' r; simpl.
  - intros [= <- <-]. apply steps_refl.
  - destruct op as [k v|v|spec|spec|v].
    + destruct jsExports as [| | |e]; try (intros [= <- <-]; apply steps_refl).
      intros H. apply IH in H. eapply steps_trans; [|exact H]. now apply steps_same.
    + intros H. apply IH in H. eapply steps_trans; [|exact H]. now apply steps_same.
    + destruct (req (Some path) spec s) as [[s1 [h|e]]|] eqn:E; intros H.
      * eapply steps_trans; [eapply Hreq | eapply IH]; eassumption.
      * injection H as <- <-. eapply Hreq; eassumption.
      * discriminate.
    + destruct (req (Some path) spec s) as [[s1 r1]|] eqn:E; intros H; [|discriminate].
      eapply steps_trans; [eapply Hreq | eapply IH]; eassumption.
    + intros [= <- <-]. apply steps_refl.
Qed.

Lemma run_native_steps (caller : option string) (module : Handle) (ops : list NativeOp)
    (s s' : State) :
  run_native req caller module ops s = Some s' -> steps s s'.
Proof.
  revert s. induction ops as [|op ops IH]; intros s; simpl.
  - intros [= <-]. apply steps_refl.
  - destruct op as [k v|v|spec].
    + destruct (object_get module "exports" s); intros H; try (now apply IH).
      apply IH in H. eapply steps_trans; [|exact H]. now apply steps_same.
    + intros H. apply IH in H. eapply steps_trans; [|exact H]. now apply steps_same.
    + destruct (req caller spec s) as [[s1 r1]|] eqn:E; intros H; [|discriminate].
      eapply steps_trans; [eapply Hreq; eassumption | now apply IH].
Qed.

Lemma loadModuleFile_steps (path : string) (jsModule : Handle) :
  msteps (loadModuleFile env req path jsModule).
Proof.
  intros s s' r. unfold loadModuleFile.
  assert (Hc : steps s (log (EvCompile path) s)) by (apply steps_log; discriminate).
  destruct (getCompiledSource env path) as [[v|v|body]|e].
  1,2,4: now intros [= <- <-].
  intros H. eapply steps_trans; [exact Hc|].
  eapply steps_trans; [apply (steps_log (EvRun path jsModule)); discriminate|].
  eapply run_ops_steps; eassumption.
Qed.

Lemma loadModule_steps (path : string) : msteps (loadModule env req path).
Proof.
  intros s s' r. unfold loadModule.
  destruct (modules s !! path) as [h|] eqn:Hp.
  - intros [= <- <-]. apply steps_refl.
  - rewrite createModuleObject_eq.
    destruct (loadModuleFile _ _ _ _ _) as [[s3 [u|e]]|] eqn:E; intros H; [| |discriminate];
      injection H as <- <-;
      apply loadModuleFile_steps in E;
      destruct (steps_create s (set_modules (insert path (next s)) (snd (createModuleObject s)))
                  s3 path (next s) Hp eq_refl eq_refl ltac:(simpl; lia)
                  ltac:(reflexivity) ltac:(simpl; lia) E) as [H1 H2].
    + assumption.
    + now apply H2.
Qed.

Lemma loadAsFile_steps (path : string) : msteps (loadAsFile env req path).
Proof. repeat apply orelse_steps; apply loadModule_steps. Qed.

Lemma loadIndex_steps (path : string) : msteps (loadIndex env req path).
Proof. repeat apply orelse_steps; apply loadModule_steps. Qed.

Lemma loadAsDirectory_steps (path : string) : msteps (loadAsDirectory env req path).
Proof.
  intros s s' r. unfold loadAsDirectory. intros H.
  eapply steps_trans;
    [apply (steps_log (EvSource (Path.Join path "package.json"))); discriminate|].
  destruct (getSource env _) as [buf|e]; [|eapply loadIndex_steps; eassumption].
  destruct (unmarshalMain env buf) as [main|]; [|eapply loadIndex_steps; eassumption].
  destruct (String.eqb main ""); [eapply loadIndex_steps; eassumption|].
  eapply orelse_steps; [apply loadAsFile_steps | apply loadIndex_steps | eassumption].
Qed.

Lemma loadAsFileOrDirectory_steps (path : string) :
  msteps (loadAsFileOrDirectory env req path).
Proof. apply orelse_steps; [apply loadAsFile_steps | apply loadAsDirectory_steps]. Qed.

Lemma loadNodeModules_steps (path start : string) :
  msteps (loadNodeModules env req path start).
Proof.
  unfold loadNodeModules.
  assert (Hk : msteps (loadAscent env req (ascentBound start) path start)).
  { generalize (ascentBound start). intros n. revert start.
    induction n as [|n IH]; intros start; simpl; [intros s s' r [=]|].
    apply orelse_steps; [apply loadAsFileOrDirectory_steps|].
    destruct (String.eqb start ".."); [apply fail_steps|].
    destruct (String.eqb _ start); [apply fail_steps | apply IH]. }
  induction (globalFolders env) as [|dir dirs IH]; simpl; [assumption|].
  apply orelse_steps; [apply loadAsFileOrDirectory_steps | assumption].
Qed.

Lemma loadNative_steps (caller : option string) (path : string) :
  msteps (loadNative env req caller path).
Proof.
  intros s s' r. unfold loadNative.
  destruct (modules s !! path) as [h|] eqn:Hp.
  - intros [= <- <-]. apply steps_refl.
  - destruct (nativeLoader env path) as [ldr|]; [|intros [= <- <-]; apply steps_refl].
    rewrite createModuleObject_eq.
    destruct (run_native _ _ _ _ _) as [s3|] eqn:E; intros H; [|discriminate].
    injection H as <- <-. apply run_native_steps in E.
    refine (proj1 (steps_create s (pendingNative path s) s3 path (next s) Hp
                     eq_refl eq_refl _ _ _ E)).
    + simpl. lia.
    + intros name Hne. simpl. rewrite nativeRuns_app. simpl.
      destruct (String.eqb_spec path name); [congruence | lia].
    + simpl. rewrite nativeRuns_app. simpl. rewrite String.eqb_refl. lia.
Qed.

Lemma loadNative_Err (caller : option string) (path : string) (s s1 : State) (e : error) :
  loadNative env req caller path s = Some (s1, Err e) -> s1 = s.
Proof.
  unfold loadNative. destruct (modules s !! path); [discriminate|].
  destruct (nativeLoader env path); [|now intros [= <- _]].
  rewrite createModuleObject_eq. destruct (run_native _ _ _ _ _); discriminate.
Qed.

Lemma resolve_steps : stepping (resolve env req).
Proof.
  intros caller spec s s' r. unfold resolve.
  destruct (String.eqb (filepathClean spec) ""); [intros [= <- <-]; apply steps_refl|].
  destruct (loadNative env req caller (filepathClean spec) s) as [[s1 [h|e]]|] eqn:E;
    [| |discriminate].
  - intros [= <- <-]. eapply loadNative_steps; eassumption.
  - apply loadNative_Err in E. subst s1.
    destruct (isRelative spec).
    + destruct (modules s !! _) as [h|] eqn:Hp; [intros [= <- <-]; apply steps_refl|].
      destruct (loadAsFileOrDirectory _ _ _ _) as [[s2 [h|e2]]|] eqn:E2; intros H;
        [| |discriminate]; injection H as <- <-;
        apply loadAsFileOrDirectory_steps in E2; [|assumption].
      now apply steps_insert.
    + destruct (nodeModules s !! _) as [h|] eqn:Hp; [intros [= <- <-]; apply steps_refl|].
      destruct (loadNodeModules _ _ _ _ _) as [[s2 [h|e2]]|] eqn:E2; intros H;
        [| |discriminate]; injection H as <- <-;
        apply loadNodeModules_steps in E2; [|assumption].
      now apply steps_insert_node.
Qed.

End Once.

Lemma require_steps (env : Env) (n : nat) : stepping (require env n).
Proof.
  induction n as [|n IH]; [intros caller spec s s' r [=]|].
  apply resolve_steps, IH.
Qed.

Lemma loadedOnce_steps (s s' : State) : loadedOnce s -> steps s s' -> loadedOnce s'.
Proof.
  intros Hs [E [M B F]] name. destruct (Hs name) as [H1 H2].
  destruct (modules s !! name) as [h|] eqn:Hn.
  - rewrite (ext_native _ _ E name) by eauto. split; [assumption|].
    intros _. exists h. exact (extends_lookup _ _ _ _ E Hn).
  - assert (nativeRuns name (trace s) = 0) as H0.
    { destruct (nativeRuns name (trace s)) as [|[|k]]; [reflexivity | | lia].
      destruct (H2 eq_refl) as [h Hh]. congruence. }
    specialize (B name Hn). split; [lia|]. intros H. apply F. lia.
Qed.

(** In every state reached from the initial one by [require] calls, no
    native loader has run more than once. *)
Lemma native_loader_runs_once (env : Env) (s : State) (name : string) :
  later env init s -> nativeRuns name (trace s) <= 1.
Proof.
  intros H. cut (loadedOnce s); [intros Hs; apply Hs|].
  remember init as s0 eqn:E0. induction H as [|s1 s2 s3 n caller spec r _ IH H].
  - subst. intros name'. simpl. split; [lia | discriminate].
  - eapply loadedOnce_steps; [apply IH, E0 | eapply require_steps, H].
Qed.

(** ** Search order *)

(** C5: [loadAsFile] tries the exact path, then the path with [.js]
    appended, then the path with [.json] appended, in this order, and
    stops at the first candidate that loads: it is the first-success
    search over exactly these three candidates. *)
Theorem loadAsFile_order (env : Env) (req : RequireFn) (path : string) (s : State) :
  loadAsFile env req path s
  = firstSuccess (loadModule env req) path [path +:+ ".js"; path +:+ ".json"] s.
Proof.
  unfold loadAsFile, orelse. simpl.
  destruct (loadModule env req path s) as [[s1 [h|e]]|]; try reflexivity.
  destruct (loadModule env req (path +:+ ".js") s1) as [[s2 [h2|e2]]|]; try reflexivity.
  destruct (loadModule env req (path +:+ ".json") s2) as [[s3 [h3|e3]]|]; reflexivity.
Qed.

Lemma loadIndex_order (env : Env) (req : RequireFn) (path : string) (s : State) :
  loadIndex env req path s
  = firstSuccess (loadModule env req) (Path.Join path "index.js") [Path.Join path "index.json"] s.
Proof.
  unfold loadIndex, orelse. simpl.
  destruct (loadModule env req _ s) as [[s1 [h|e]]|]; try reflexivity.
  destruct (loadModule env req _ s1) as [[s2 [h2|e2]]|]; reflexivity.
Qed.

Lemma firstSuccess_cons (load : string -> M Handle) (c c' : string) (cs : list string) (s : State) :
  firstSuccess load c (c' :: cs) s = orelse (load c) (firstSuccess load c' cs) s.
Proof. unfold orelse. simpl. destruct (load c s) as [[s1 [h|e]]|]; reflexivity. Qed.

(** C6: [loadAsDirectory] reads [path/package.json]; when the manifest
    is absent, does not parse or has an empty [main], it tries
    [path/index.js] and then [path/index.json]; otherwise it tries the
    file candidates of [m = Join(path, main)] and then [m/index.js] and
    [m/index.json], the index of the joined main path. *)
Theorem loadAsDirectory_order (env : Env) (req : RequireFn) (path : string) (s : State) :
  loadAsDirectory env req path s = loadAsDirectory_spec env req path s.
Proof.
  unfold loadAsDirectory, loadAsDirectory_spec, manifestMain.
  destruct (getSource env (Path.Join path "package.json")) as [buf|e];
    [|apply loadIndex_order].
  destruct (unmarshalMain env buf) as [main|]; [|apply loadIndex_order].
  destruct (String.eqb main ""); [apply loadIndex_order|].
  unfold loadAsFile, loadIndex, orelse. simpl.
  repeat (match goal with
          | |- context [loadModule ?e ?r ?p ?st] =>
              destruct (loadModule e r p st) as [[? [?|?]]|]
          end; try reflexivity).
Qed.

Lemma firstSuccessOr_cons (load : string -> M Handle) (c : string) (cs : list string)
    (e : error) (s : State) :
  firstSuccessOr load (c :: cs) e s = orelse (load c) (firstSuccessOr load cs e) s.
Proof. unfold orelse. simpl. destruct (load c s) as [[s1 [h|e1]]|]; reflexivity. Qed.

Lemma orelse_ext {A : Type} (m k k' : M A) (s : State) :
  (forall s1, k s1 = k' s1) -> orelse m k s = orelse m k' s.
Proof. intros H. unfold orelse. destruct (m s) as [[s1 [a|e]]|]; auto. Qed.

Lemma loadGlobalFolders_order (env : Env) (req : RequireFn) (path : string)
    (dirs cs : list string) (k : M Handle) (s : State) :
  (forall s1, k s1 = firstSuccessOr (loadAsFileOrDirectory env req) cs InvalidModuleError s1) ->
  loadGlobalFolders env req path dirs k s
  = firstSuccessOr (loadAsFileOrDirectory env req)
      (map (fun dir => Path.Join dir path) dirs ++ cs) InvalidModuleError s.
Proof.
  intros Hk. revert s. induction dirs as [|dir dirs IH]; intros s; [apply Hk|].
  cbn [loadGlobalFolders map app]. rewrite firstSuccessOr_cons.
  unfold loadNodeModule. now apply orelse_ext.
Qed.

Lemma loadAscent_order (env : Env) (req : RequireFn) (n : nat) (path start : string) (s : State) :
  reachesTop n start = true ->
  loadAscent env req n path start s
  = firstSuccessOr (loadAsFileOrDirectory env req)
      (map (fun dir => Path.Join dir path) (map nodeModulesDir (ancestorsN n start)))
      InvalidModuleError s.
Proof.
  revert start s. induction n as [|n IH]; intros start s H; [discriminate|].
  rewrite ancestorsN_S. cbn [map]. rewrite firstSuccessOr_cons.
  cbn [loadAscent]. unfold loadNodeModule. apply orelse_ext. intros s1.
  simpl in H. destruct (String.eqb start ".."); [reflexivity|].
  destruct (String.eqb (Path.Dir start) start); [reflexivity|]. simpl in H.
  now apply IH.
Qed.

(** C7: for a bare specifier [loadNodeModules] tries every global
    folder, in order, before any step of the ascent; the ascent then
    tries the [node_modules] directory of [start], of its parent, and
    so on, nearest first; a directory already named [node_modules] is
    its own candidate; the ascent ends at a directory that is [..] or
    its own parent; the first candidate that loads is returned, and
    [InvalidModuleError] when none does. *)
Theorem loadNodeModules_order (env : Env) (req : RequireFn) (path start : string) :
  (forall s, loadNodeModules env req path start s
             = loadNodeModules_spec env req path start s)
  /\ ancestors start
     = start :: (if String.eqb start ".." then []
                 else if String.eqb (Path.Dir start) start then []
                 else ancestors (Path.Dir start))
  /\ nodeModulesDir start
     = (if String.eqb (Path.Base start) "node_modules" then start
        else Path.Join start "node_modules").
Proof.
  split; [|split; [apply ancestors_unfold | reflexivity]].
  intros s. unfold loadNodeModules, loadNodeModules_spec, searchDirs.
  rewrite map_app. apply loadGlobalFolders_order. intros s1.
  apply loadAscent_order, ascent_terminates.
Qed.

(** A bare specifier from [/app/src/main.js]: the global folder first,
    then [/app/src/node_modules], then [/app/node_modules], where the
    manifest of [pkg] names [lib/main]; the module is filed in the
    bare-specifier cache under the joined start directory and name. *)
Example package_main :
  exists s', require envPackage 1 (Some "/app/src/main.js") "pkg" init = Some (s', Ok 28)
             /\ map_to_list (nodeModules s') = [("/app/src/pkg", 28)]
             /\ map_to_list (modules s') = [("/app/node_modules/pkg/lib/main.js", 28)]
             /\ trace s'
                = [EvCompile "/global/pkg"; EvCompile "/global/pkg.js";
                   EvCompile "/global/pkg.json"; EvSource "/global/pkg/package.json";
                   EvCompile "/global/pkg/index.js"; EvCompile "/global/pkg/index.json";
                   EvCompile "/app/src/node_modules/pkg";
                   EvCompile "/app/src/node_modules/pkg.js";
                   EvCompile "/app/src/node_modules/pkg.json";
                   EvSource "/app/src/node_modules/pkg/package.json";
                   EvCompile "/app/src/node_modules/pkg/index.js";
                   EvCompile "/app/src/node_modules/pkg/index.json";
                   EvCompile "/app/node_modules/pkg";
                   EvCompile "/app/node_modules/pkg.js";
                   EvCompile "/app/node_modules/pkg.json";
                   EvSource "/app/node_modules/pkg/package.json";
                   EvCompile "/app/node_modules/pkg/lib/main";
                   EvCompile "/app/node_modules/pkg/lib/main.js";
                   EvRun "/app/node_modules/pkg/lib/main.js" 28].
Proof. eexists. split; [vm_compute; reflexivity|]. repeat split; vm_compute; reflexivity. Qed.

(** ** Native modules *)

Lemma Clean_nonempty (s : string) : Path.Clean s <> "".
Proof.
  unfold Path.Clean. destruct (String.eqb s ""); [discriminate|].
  destruct (Path.rooted s); [discriminate|].
  destruct (String.eqb_spec (Path.join_slash (Path.clean_elems false (Path.split_slash s))) "");
    [discriminate | assumption].
Qed.

Lemma filepathClean_eqb (spec : string) : String.eqb (filepathClean spec) "" = false.
Proof. apply String.eqb_neq, Clean_nonempty. Qed.

Lemma loadNative_hit (env : Env) (req : RequireFn) (caller : option string)
    (path : string) (s : State) (h : Handle) :
  modules s !! path = Some h -> loadNative env req caller path s = Some (s, Ok h).
Proof. intros H. unfold loadNative. now rewrite H. Qed.

Lemma loadNative_miss (env : Env) (req : RequireFn) (caller : option string)
    (path : string) (s : State) :
  modules s !! path = None -> nativeLoader env path = None ->
  loadNative env req caller path s = Some (s, Err InvalidModuleError).
Proof. intros H1 H2. unfold loadNative. now rewrite H1, H2. Qed.

Lemma loadNative_load (env : Env) (req : RequireFn) (caller : option string)
    (path : string) (s : State) (ldr : ModuleLoader) :
  modules s !! path = None -> nativeLoader env path = Some ldr ->
  loadNative env req caller path s
  = match run_native req caller (next s) ldr (pendingNative path s) with
    | Some s1 => Some (s1, Ok (next s))
    | None => None
    end.
Proof. intros H1 H2. unfold loadNative. now rewrite H1, H2. Qed.

(** A module cached under the cleaned specifier answers the request,
    whatever the form of the specifier. *)
Lemma resolve_cached (env : Env) (req : RequireFn) (caller : option string)
    (spec : string) (s : State) (h : Handle) :
  modules s !! filepathClean spec = Some h ->
  resolve env req caller spec s = Some (s, Ok h).
Proof.
  intros H. unfold resolve. rewrite filepathClean_eqb.
  now rewrite (loadNative_hit _ _ _ _ _ _ H).
Qed.

Lemma resolve_native (env : Env) (req : RequireFn) (caller : option string)
    (spec : string) (s : State) (ldr : ModuleLoader) :
  nativeLoader env (filepathClean spec) = Some ldr ->
  modules s !! filepathClean spec = None ->
  resolve env req caller spec s
  = match run_native req caller (next s) ldr (pendingNative (filepathClean spec) s) with
    | Some s1 => Some (s1, Ok (next s))
    | None => None
    end.
Proof.
  intros Hl Hm. unfold resolve. rewrite filepathClean_eqb.
  rewrite (loadNative_load _ _ _ _ _ _ Hm Hl).
  destruct (run_native _ _ _ _ _); reflexivity.
Qed.




(** A specifier whose cleaned form has a native loader and no cache
    entry is resolved by filing a new module object, one that no key of
    either cache holds, under the cleaned specifier and then running
    the loader on it; in every state reached from there by further
    [require] calls, a [require] of a specifier with the same cleaned
    form returns the same object and leaves the state as it is, so the
    loader has run exactly once. *)
Theorem loadNative_once (env : Env) (n : nat) (caller : option string)
    (spec : string) (s : State) (ldr : ModuleLoader) :
  nativeLoader env (filepathClean spec) = Some ldr ->
  modules s !! filepathClean spec = None ->
  (allocated s ->
   forall k, modules s !! k <> Some (next s) /\ nodeModules s !! k <> Some (next s))
  /\ modules (pendingNative (filepathClean spec) s) !! filepathClean spec = Some (next s)
  /\ require env (S n) caller spec s
     = match run_native (require env n) caller (next s) ldr
               (pendingNative (filepathClean spec) s) with
       | Some s1 => Some (s1, Ok (next s))
       | None => None
       end
  /\ forall s1,
       run_native (require env n) caller (next s) ldr
         (pendingNative (filepathClean spec) s) = Some s1 ->
       forall s2, later env s1 s2 ->
         nativeRuns (filepathClean spec) (trace s2)
         = S (nativeRuns (filepathClean spec) (trace s))
         /\ forall m caller' spec',
              filepathClean spec' = filepathClean spec ->
              require env (S m) caller' spec' s2 = Some (s2, Ok (next s)).
Proof.
  intros Hl Hm.
  assert (Hp : modules (pendingNative (filepathClean spec) s) !! filepathClean spec
               = Some (next s)) by (simpl; apply lookup_insert_eq).
  split; [intros Ha k; now apply allocated_fresh|].
  split; [exact Hp|]. split; [now apply resolve_native|].
  intros s1 Hrun s2 Hlater.
  pose proof (run_native_extends _ (require_extends env n) _ _ _ _ _ Hrun) as E1.
  pose proof (later_extends _ _ _ Hlater) as E2.
  pose proof (extends_trans _ _ _ E1 E2) as E.
  split.
  - rewrite (ext_native _ _ E) by (rewrite Hp; eauto).
    simpl. rewrite nativeRuns_app. simpl. rewrite String.eqb_refl. lia.
  - intros m caller' spec' Hc. simpl. apply resolve_cached. rewrite Hc.
    exact (extends_lookup _ _ _ _ E Hp).
Qed.

Lemma loadNative_once_example :
  require envNativeSelf 2 None "util" init
  = match run_native (require envNativeSelf 1) None (next init)
            [NRequire "./util"; NExport "inspect" (VNumber 1)]
            (pendingNative (filepathClean "util") init) with
    | Some s1 => Some (s1, Ok (next init))
    | None => None
    end.
Proof.
  refine (proj1 (proj2 (proj2
            (loadNative_once envNativeSelf 1 None "util" init
               [NRequire "./util"; NExport "inspect" (VNumber 1)] _ _))));
    vm_compute; reflexivity.
Defined.

(** The loader of [envNativeSelf] requires its own module while it
    runs and is handed the object being filled. *)
Example native_self_require :
  exists s', require envNativeSelf 2 None "util" init = Some (s', Ok 0)
             /\ trace s' = [EvNative "util" 0]
             /\ object_get 1 "inspect" s' = VNumber 1.
Proof. eexists. split; [vm_compute; reflexivity|]. split; vm_compute; reflexivity. Qed.

(** ** Cycles *)

Lemma loadModule_hit (env : Env) (req : RequireFn) (path : string) (s : State) (h : Handle) :
  modules s !! path = Some h -> loadModule env req path s = Some (s, Ok h).
Proof. intros H. unfold loadModule. now rewrite H. Qed.

Lemma loadModule_run (env : Env) (req : RequireFn) (path : string) (s : State)
    (body : list Op) :
  modules s !! path = None ->
  getCompiledSource env path = Ok (PrgFunction body) ->
  loadModule env req path s
  = match run_ops req path (next s) (VObject (S (next s))) body (pending path s) with
    | Some (s3, Ok _) => Some (s3, Ok (next s))
    | Some (s3, Err e) => Some (set_modules (delete path) s3, Err e)
    | None => None
    end.
Proof.
  intros Hm Hc. unfold loadModule. rewrite Hm, createModuleObject_eq.
  unfold loadModuleFile. rewrite Hc.
  change (object_get (next s) "exports" (log (EvCompile path) _))
    with (object_get (next s) "exports" (snd (createModuleObject s))).
  rewrite createModuleObject_exports. reflexivity.
Qed.

(** A relative request for a key that is cached, with nothing under the
    cleaned specifier itself, is answered from the cache. *)
Lemma resolve_relative_cached (env : Env) (req : RequireFn) (caller : option string)
    (spec : string) (s : State) (h : Handle) :
  isRelative spec = true ->
  nativeLoader env (filepathClean spec) = None ->
  modules s !! filepathClean spec = None ->
  modules s !! requestKey caller spec = Some h ->
  resolve env req caller spec s = Some (s, Ok h).
Proof.
  intros Hr Hl Hm Hk. unfold resolve. rewrite filepathClean_eqb.
  rewrite (loadNative_miss _ _ _ _ _ Hm Hl), Hr.
  unfold requestKey in Hk. now rewrite Hk.
Qed.

(** [loadModule] on a path that is not cached creates a new module
    object, one that no key of either cache holds, whose [exports] is a
    new empty object, and files it under the path before the body
    starts; at any point the body reaches, the entry is still there, so
    loading the same path again returns that very object at once,
    without running anything and without error. A relative [require]
    from the body that names the path does so too when the native
    lookup on its cleaned specifier finds no loader and no module. *)
Theorem loadModule_cycle (env : Env) (n : nat) (path : string) (s sm : State)
    (pre post : list Op) :
  modules s !! path = None ->
  getCompiledSource env path = Ok (PrgFunction (pre ++ post)) ->
  run_ops (require env n) path (next s) (VObject (S (next s))) pre (pending path s)
  = Some (sm, Ok tt) ->
  (allocated s ->
   forall k, modules s !! k <> Some (next s) /\ nodeModules s !! k <> Some (next s))
  /\ (modules (pending path s) !! path = Some (next s)
   /\ heap (pending path s) !! next s = Some {[ "exports" := VObject (S (next s)) ]}
   /\ heap (pending path s) !! S (next s) = Some ∅)
  /\ loadModule env (require env n) path s
     = match run_ops (require env n) path (next s) (VObject (S (next s)))
               (pre ++ post) (pending path s) with
       | Some (s3, Ok _) => Some (s3, Ok (next s))
       | Some (s3, Err e) => Some (set_modules (delete path) s3, Err e)
       | None => None
       end
  /\ modules sm !! path = Some (next s)
  /\ (forall req, loadModule env req path sm = Some (sm, Ok (next s)))
  /\ (forall req spec,
        isRelative spec = true ->
        requestKey (Some path) spec = path ->
        nativeLoader env (filepathClean spec) = None ->
        modules sm !! filepathClean spec = None ->
        resolve env req (Some path) spec sm = Some (sm, Ok (next s))).
Proof.
  intros Hm Hc Hrun.
  assert (Hp : modules (pending path s) !! path = Some (next s))
    by (simpl; apply lookup_insert_eq).
  assert (Hsm : modules sm !! path = Some (next s)).
  { eapply extends_lookup; [|exact Hp].
    eapply run_ops_extends; [apply require_extends | exact Hrun]. }
  split; [intros Ha k; now apply allocated_fresh|].
  split; [split; [exact Hp|]; split|].
  - apply createModuleObject_heap_module.
  - apply createModuleObject_heap_exports.
  - split; [now apply loadModule_run|]. split; [exact Hsm|]. split.
    + intros req. now apply loadModule_hit.
    + intros req spec Hr Hk Hl Hn. apply resolve_relative_cached; try assumption.
      now rewrite Hk.
Qed.

Lemma loadModule_cycle_witness :
  modules (object_set 1 "x" (VNumber 1) (pending "/a.js" init)) !! "/a.js" = Some (next init)
  /\ forall req,
       loadModule envCycle req "/a.js" (object_set 1 "x" (VNumber 1) (pending "/a.js" init))
       = Some (object_set 1 "x" (VNumber 1) (pending "/a.js" init), Ok (next init)).
Proof.
  refine (let H := loadModule_cycle envCycle 1 "/a.js" init
                     (object_set 1 "x" (VNumber 1) (pending "/a.js" init))
                     [OpExport "x" (VNumber 1)]
                     [OpRequire "./a.js"; OpExport "y" (VNumber 2)] _ _ _ in
          conj (proj1 (proj2 (proj2 (proj2 H))))
            (proj1 (proj2 (proj2 (proj2 (proj2 H))))));
    vm_compute; reflexivity.
Defined.

(** The body of [/a.js] sets [x], requires itself and sets [y]: the
    nested call returns at once and the body runs a single time. *)
Example cycle_runs_once :
  exists s', require envCycle 2 None "/a.js" init = Some (s', Ok 0)
             /\ trace s' = [EvCompile "/a.js"; EvRun "/a.js" 0]
             /\ object_get 1 "x" s' = VNumber 1 /\ object_get 1 "y" s' = VNumber 2.
Proof. eexists. split; [vm_compute; reflexivity|]. repeat split; vm_compute; reflexivity. Qed.

(** C3 fails on the code: [x/a.js] requires [../a.js], which files
    [a.js] under the key [a.js], and then requires [./a.js], which is
    [x/a.js] itself, while its body is still running. The module of
    [x/a.js] is pending under its path, yet the cyclic call probes the
    cache with the cleaned specifier [a.js] first and returns the module
    of [a.js], not the pending one. *)
Lemma cyclic_require_other_module :
  exists sm s',
    run_ops (require envCycleShadow 2) "x/a.js" 0 (VObject 1) [OpRequire "../a.js"]
      (pending "x/a.js" init) = Some (sm, Ok tt)
    /\ requestKey (Some "x/a.js") "./a.js" = "x/a.js"
    /\ modules sm !! "x/a.js" = Some 0
    /\ modules sm !! "a.js" = Some 2
    /\ loadModule envCycleShadow (require envCycleShadow 1) "x/a.js" sm = Some (sm, Ok 0)
    /\ require envCycleShadow 1 (Some "x/a.js") "./a.js" sm = Some (sm, Ok 2)
    /\ require envCycleShadow 3 None "./x/a.js" init = Some (s', Ok 0)
    /\ trace s' = [EvCompile "x/a.js"; EvRun "x/a.js" 0; EvCompile "a.js"; EvRun "a.js" 2].
Proof.
  do 2 eexists.
  repeat (split; [vm_compute; reflexivity|]). vm_compute; reflexivity.
Qed.

(** ** Where a loaded module is cached *)

Lemma orelse_cachedAmong (cs1 cs2 : list string) (m k : M Handle) :
  cachedAmong cs1 m -> cachedAmong cs2 k -> cachedAmong (cs1 ++ cs2) (orelse m k).
Proof.
  intros Hm Hk s s' h. unfold orelse.
  destruct (m s) as [[s1 [h1|e]]|] eqn:E; intros H.
  - injection H as <- <-. destruct (Hm _ _ _ E) as (c & Hc & Hl).
    exists c. split; [apply in_or_app; now left | assumption].
  - destruct (Hk _ _ _ H) as (c & Hc & Hl).
    exists c. split; [apply in_or_app; now right | assumption].
  - discriminate.
Qed.

Section Cached.
Variable env : Env.
Variable req : RequireFn.
Hypothesis Hreq : preserves req.

Lemma loadModule_cachedAmong (path : string) : cachedAmong [path] (loadModule env req path).
Proof.
  intros s s' h H. exists path. split; [now left|]. revert H. unfold loadModule.
  destruct (modules s !! path) as [h0|] eqn:Hp; [now intros [= <- <-]|].
  rewrite createModuleObject_eq.
  destruct (loadModuleFile _ _ _ _ _) as [[s3 [u|e]]|] eqn:E; intros H; try discriminate.
  injection H as <- <-.
  eapply extends_lookup; [eapply loadModuleFile_extends; eassumption|].
  simpl. apply lookup_insert_eq.
Qed.

Lemma loadAsFile_cachedAmong (path : string) :
  cachedAmong (fileCandidates path) (loadAsFile env req path).
Proof.
  apply (orelse_cachedAmong [_] [_; _]); [apply loadModule_cachedAmong|].
  apply (orelse_cachedAmong [_] [_]); apply loadModule_cachedAmong.
Qed.

Lemma loadIndex_cachedAmong (path : string) :
  cachedAmong (indexCandidates path) (loadIndex env req path).
Proof. apply (orelse_cachedAmong [_] [_]); apply loadModule_cachedAmong. Qed.

Lemma loadAsDirectory_cachedAmong (path : string) :
  cachedAmong (directoryCandidates env path) (loadAsDirectory env req path).
Proof.
  intros s s' h. unfold loadAsDirectory, directoryCandidates, manifestMain.
  destruct (getSource env _) as [buf|e]; [|apply loadIndex_cachedAmong].
  destruct (unmarshalMain env buf) as [main|]; [|apply loadIndex_cachedAmong].
  destruct (String.eqb main ""); [apply loadIndex_cachedAmong|].
  apply orelse_cachedAmong; [apply loadAsFile_cachedAmong | apply loadIndex_cachedAmong].
Qed.

Lemma loadAsFileOrDirectory_cachedAmong (path : string) :
  cachedAmong (candidates env path) (loadAsFileOrDirectory env req path).
Proof.
  apply orelse_cachedAmong; [apply loadAsFile_cachedAmong | apply loadAsDirectory_cachedAmong].
Qed.

End Cached.



(** Each loader is the search of [loadModule] over its candidates. *)
Section Resolved.
Variable env : Env.
Variable req : RequireFn.
Hypothesis Hreq : preserves req.






End Resolved.




(** ** Requests that nothing answers *)

Lemma unchanged_refl (s : State) : unchanged s s.
Proof. split; reflexivity. Qed.

Lemma unchanged_trans (s1 s2 s3 : State) :
  unchanged s1 s2 -> unchanged s2 s3 -> unchanged s1 s3.
Proof. intros [A B] [C D]. split; congruence. Qed.

Lemma absent_unchanged (env : Env) (s s' : State) (c : string) :
  unchanged s s' -> absent env s c -> absent env s' c.
Proof. intros [Hm _] [H1 H2]. split; [now rewrite Hm | assumption]. Qed.

Lemma last_app_nonempty (l1 l2 : list string) (d : string) :
  l2 <> [] -> List.last (l1 ++ l2) d = List.last l2 d.
Proof.
  intros H. induction l1 as [|x l1 IH]; [reflexivity|].
  simpl. destruct (l1 ++ l2)%list eqn:E; [|assumption].
  apply app_eq_nil in E as [_ ->]. contradiction.
Qed.

Section NotFound.
Variable env : Env.
Variable req : RequireFn.

Lemma loadModule_absent (c : string) (s : State) :
  absent env s c ->
  exists s' e, loadModule env req c s = Some (s', Err e)
               /\ unchanged s s' /\ getCompiledSource env c = Err e.
Proof.
  intros [Hm [e He]]. unfold loadModule. rewrite Hm, createModuleObject_eq.
  unfold loadModuleFile. rewrite He. do 2 eexists. split; [reflexivity|].
  split; [|reflexivity]. split; simpl; [|reflexivity].
  now apply delete_insert_id.
Qed.

Lemma orelse_absent (m k : M Handle) (s : State) (P : error -> Prop) :
  (exists s1 e1, m s = Some (s1, Err e1) /\ unchanged s s1) ->
  (forall s1, unchanged s s1 -> exists s' e, k s1 = Some (s', Err e) /\ unchanged s1 s' /\ P e) ->
  exists s' e, orelse m k s = Some (s', Err e) /\ unchanged s s' /\ P e.
Proof.
  intros (s1 & e1 & Hm & U1) Hk. destruct (Hk s1 U1) as (s' & e & Hk' & U2 & HP).
  exists s', e. unfold orelse. rewrite Hm. split; [assumption|].
  split; [exact (unchanged_trans _ _ _ U1 U2) | assumption].
Qed.

Lemma loadModule_absent_weak (c : string) (s : State) :
  absent env s c ->
  exists s1 e1, loadModule env req c s = Some (s1, Err e1) /\ unchanged s s1.
Proof. intros H. destruct (loadModule_absent c s H) as (s1 & e1 & ? & ? & _). eauto. Qed.

Lemma loadAsFile_absent (p : string) (s : State) :
  (forall c, In c (fileCandidates p) -> absent env s c) ->
  exists s' e, loadAsFile env req p s = Some (s', Err e)
               /\ unchanged s s' /\ getCompiledSource env (p +:+ ".json") = Err e.
Proof.
  intros H. unfold loadAsFile.
  apply orelse_absent; [apply loadModule_absent_weak, H; simpl; auto|].
  intros s1 U1.
  apply orelse_absent;
    [apply loadModule_absent_weak, (absent_unchanged _ _ _ _ U1), H; simpl; auto|].
  intros s2 U2. apply loadModule_absent.
  apply (absent_unchanged _ _ _ _ U2), (absent_unchanged _ _ _ _ U1), H. simpl. auto.
Qed.

Lemma loadIndex_absent (p : string) (s : State) :
  (forall c, In c (indexCandidates p) -> absent env s c) ->
  exists s' e, loadIndex env req p s = Some (s', Err e)
               /\ unchanged s s' /\ getCompiledSource env (Path.Join p "index.json") = Err e.
Proof.
  intros H. unfold loadIndex.
  apply orelse_absent; [apply loadModule_absent_weak, H; simpl; auto|].
  intros s1 U1. apply loadModule_absent.
  apply (absent_unchanged _ _ _ _ U1), H. simpl. auto.
Qed.

Lemma loadAsDirectory_absent (p : string) (s : State) :
  (forall c, In c (directoryCandidates env p) -> absent env s c) ->
  exists s' e, loadAsDirectory env req p s = Some (s', Err e)
               /\ unchanged s s'
               /\ getCompiledSource env (List.last (directoryCandidates env p) "") = Err e.
Proof.
  unfold loadAsDirectory, directoryCandidates, manifestMain. intros H.
  set (s0 := log (EvSource (Path.Join p "package.json")) s).
  assert (U0 : unchanged s s0) by (split; reflexivity).
  assert (Hidx : (forall c, In c (indexCandidates p) -> absent env s c) ->
                 exists s' e, loadIndex env req p s0 = Some (s', Err e)
                              /\ unchanged s s'
                              /\ getCompiledSource env (List.last (indexCandidates p) "") = Err e).
  { intros Hi. destruct (loadIndex_absent p s0) as (s' & e & E & U & He).
    - intros c Hc. apply (absent_unchanged _ _ _ _ U0), Hi, Hc.
    - exists s', e. split; [assumption|]. split; [|assumption].
      exact (unchanged_trans _ _ _ U0 U). }
  destruct (getSource env _) as [buf|e0]; [|now apply Hidx].
  destruct (unmarshalMain env buf) as [main|]; [|now apply Hidx].
  destruct (String.eqb main ""); [now apply Hidx|].
  set (m := Path.Join p main) in *.
  destruct (orelse_absent (loadAsFile env req m) (loadIndex env req m) s0
              (fun e => getCompiledSource env (Path.Join m "index.json") = Err e))
    as (s' & e & E & U & He).
  - destruct (loadAsFile_absent m s0) as (s1 & e1 & ? & ? & _); [|eauto].
    intros c Hc. apply (absent_unchanged _ _ _ _ U0), H, in_or_app. now left.
  - intros s1 U1. apply loadIndex_absent. intros c Hc.
    apply (absent_unchanged _ _ _ _ U1), (absent_unchanged _ _ _ _ U0), H, in_or_app.
    now right.
  - exists s', e. split; [assumption|]. split; [exact (unchanged_trans _ _ _ U0 U)|].
    assumption.
Qed.

Lemma directoryCandidates_nonempty (p : string) : directoryCandidates env p <> [].
Proof. unfold directoryCandidates. destruct (manifestMain env p); discriminate. Qed.

Lemma loadAsFileOrDirectory_absent (p : string) (s : State) :
  (forall c, In c (candidates env p) -> absent env s c) ->
  exists s' e, loadAsFileOrDirectory env req p s = Some (s', Err e)
               /\ unchanged s s'
               /\ getCompiledSource env (List.last (candidates env p) "") = Err e.
Proof.
  intros H. unfold loadAsFileOrDirectory, candidates.
  rewrite last_app_nonempty by apply directoryCandidates_nonempty.
  apply orelse_absent.
  - destruct (loadAsFile_absent p s) as (s1 & e1 & ? & ? & _); [|eauto].
    intros c Hc. apply H, in_or_app. now left.
  - intros s1 U1. apply loadAsDirectory_absent. intros c Hc.
    apply (absent_unchanged _ _ _ _ U1), H, in_or_app. now right.
Qed.

Lemma loadGlobalFolders_absent (path : string) (dirs : list string) (k : M Handle) (s : State) :
  (forall dir, In dir dirs ->
     forall c, In c (candidates env (Path.Join dir path)) -> absent env s c) ->
  (forall s1, unchanged s s1 ->
     exists s', k s1 = Some (s', Err InvalidModuleError) /\ unchanged s1 s') ->
  exists s', loadGlobalFolders env req path dirs k s = Some (s', Err InvalidModuleError)
             /\ unchanged s s'.
Proof.
  revert s. induction dirs as [|dir dirs IH]; intros s H Hk; simpl.
  - apply Hk, unchanged_refl.
  - destruct (loadAsFileOrDirectory_absent (Path.Join dir path) s) as (s1 & e1 & E1 & U1 & _).
    { apply H. now left. }
    unfold orelse, loadNodeModule. rewrite E1.
    destruct (IH s1) as (s' & E & U).
    + intros d Hd c Hc. apply (absent_unchanged _ _ _ _ U1), (H d); [now right | assumption].
    + intros s2 U2. apply Hk. exact (unchanged_trans _ _ _ U1 U2).
    + exists s'. split; [assumption | exact (unchanged_trans _ _ _ U1 U)].
Qed.

Lemma loadAscent_absent (n : nat) (path start : string) (s : State) :
  reachesTop n start = true ->
  (forall dir, In dir (map nodeModulesDir (ancestorsN n start)) ->
     forall c, In c (candidates env (Path.Join dir path)) -> absent env s c) ->
  exists s', loadAscent env req n path start s = Some (s', Err InvalidModuleError)
             /\ unchanged s s'.
Proof.
  revert start s. induction n as [|n IH]; intros start s Htop H; [discriminate|].
  rewrite ancestorsN_S in H. cbn [loadAscent]. simpl in Htop.
  destruct (loadAsFileOrDirectory_absent (Path.Join (nodeModulesDir start) path) s)
    as (s1 & e1 & E1 & U1 & _).
  { apply H. now left. }
  unfold orelse, loadNodeModule. rewrite E1.
  destruct (String.eqb start ".."); [exists s1; split; [reflexivity | assumption]|].
  destruct (String.eqb (Path.Dir start) start);
    [exists s1; split; [reflexivity | assumption]|].
  simpl in Htop. destruct (IH (Path.Dir start) s1 Htop) as (s' & E & U).
  - intros d Hd c Hc. apply (absent_unchanged _ _ _ _ U1), (H d); [now right | assumption].
  - exists s'. split; [assumption | exact (unchanged_trans _ _ _ U1 U)].
Qed.

Lemma loadNodeModules_absent (path start : string) (s : State) :
  (forall dir, In dir (searchDirs env start) ->
     forall c, In c (candidates env (Path.Join dir path)) -> absent env s c) ->
  exists s', loadNodeModules env req path start s = Some (s', Err InvalidModuleError)
             /\ unchanged s s'.
Proof.
  intros H. unfold loadNodeModules. apply loadGlobalFolders_absent.
  - intros d Hd. apply H, in_or_app. now left.
  - intros s1 U1. apply loadAscent_absent; [apply ascent_terminates|].
    intros d Hd c Hc. apply (absent_unchanged _ _ _ _ U1), (H d); [|assumption].
    apply in_or_app. now right.
Qed.

End NotFound.

(** C8, as the code has it: when the native lookup misses, the request
    key is not cached and none of the files the request can resolve to
    is cached or known to the provider, [require] fails and leaves both
    caches as they were. For a bare specifier the error is
    [InvalidModuleError] itself; for a relative or absolute one it is
    the provider's error for the last file tried. *)
Theorem resolve_not_found (env : Env) (n : nat) (caller : option string)
    (spec : string) (s : State) :
  nativeLoader env (filepathClean spec) = None ->
  modules s !! filepathClean spec = None ->
  (if isRelative spec then modules s !! requestKey caller spec = None
   else nodeModules s !! requestKey caller spec = None) ->
  (forall c, In c (requestCandidates env caller spec) -> absent env s c) ->
  exists s' e,
    require env (S n) caller spec s = Some (s', Err e)
    /\ modules s' = modules s /\ nodeModules s' = nodeModules s
    /\ (if isRelative spec
        then getCompiledSource env (List.last (requestCandidates env caller spec) "") = Err e
        else e = InvalidModuleError).
Proof.
  intros Hl Hm Hk Hc. simpl. unfold resolve.
  rewrite filepathClean_eqb, (loadNative_miss _ _ _ _ _ Hm Hl).
  fold (requestKey caller spec). unfold requestCandidates in *.
  fold (requestKey caller spec) in *.
  destruct (isRelative spec).
  - rewrite Hk.
    destruct (loadAsFileOrDirectory_absent env (require env n) _ s Hc)
      as (s' & e & E & [U1 U2] & He).
    rewrite E. exists s', e. auto.
  - rewrite Hk.
    destruct (loadNodeModules_absent env (require env n) (filepathClean spec)
                (startDir caller spec) s) as (s' & E & [U1 U2]).
    { intros d Hd c Hcand. apply Hc, in_flat_map. eauto. }
    rewrite E. exists s', InvalidModuleError. auto.
Qed.

Lemma resolve_not_found_witness :
  exists s' e,
    require (plainEnv []) 1 (Some "/app/src/main.js") "foo" init = Some (s', Err e)
    /\ modules s' = modules init /\ nodeModules s' = nodeModules init
    /\ e = InvalidModuleError.
Proof.
  apply (resolve_not_found (plainEnv []) 0 (Some "/app/src/main.js") "foo" init);
    try (vm_compute; reflexivity).
  intros c _. split; [reflexivity|]. now exists (SourceError c).
Defined.

(** C8 fails as stated: a bare specifier that nothing answers fails
    with [InvalidModuleError], the very error [loadModule] reports for
    a source that does not evaluate to a function; the resolver has no
    error of its own for a missing module. *)
Lemma not_found_is_invalid_module :
  (exists s', require (plainEnv []) 1 (Some "/app/src/main.js") "foo" init
              = Some (s', Err InvalidModuleError))
  /\ (exists s', loadModule (plainEnv [("/m.js", PrgNotCallable VUndefined)])
                   (require (plainEnv []) 0) "/m.js" init
                 = Some (s', Err InvalidModuleError)).
Proof. split; eexists; vm_compute; reflexivity. Qed.

(** ** Two defects of the cache *)

(** C2 fails on the code: [/a.js] requires [./a], which is itself, and
    then throws. The nested call files the module under the request
    key [/a]; when the body fails [loadModule] removes the entry under
    [/a.js] only. The failed [require("/a")] leaves [/a] cached, and
    the next [require("/a")] returns the module whose body threw. *)
Lemma failed_load_stays_cached :
  exists s',
    require envCyclicThrow 2 None "/a" init = Some (s', Err (SourceError "/a/index.json"))
    /\ modules s' !! "/a.js" = None
    /\ modules s' !! "/a" = Some 2
    /\ trace s' = [EvCompile "/a"; EvCompile "/a.js"; EvRun "/a.js" 2; EvCompile "/a";
                   EvCompile "/a.json"; EvSource "/a/package.json";
                   EvCompile "/a/index.js"; EvCompile "/a/index.json"]
    /\ require envCyclicThrow 2 None "/a" s' = Some (s', Ok 2).
Proof.
  eexists. split; [vm_compute; reflexivity|].
  repeat split; vm_compute; reflexivity.
Qed.

(** C4 fails on the code: [x/main.js] requires [./a] twice. The first
    call loads [x/a.js], whose body requires [../a] and so files
    [a.js] under the key [a]. The second call probes the cache with
    the cleaned specifier [a] before it looks at the request key [x/a]
    and returns the module of [a.js]. *)
Lemma second_require_other_module :
  exists s1 s2,
    require envShadow 2 (Some "x/main.js") "./a" init = Some (s1, Ok 2)
    /\ requestKey (Some "x/main.js") "./a" = "x/a"
    /\ modules s1 !! "x/a" = Some 2
    /\ modules s1 !! "a" = Some 6
    /\ require envShadow 2 (Some "x/main.js") "./a" s1 = Some (s2, Ok 6)
    /\ trace s2 = [EvCompile "x/a"; EvCompile "x/a.js"; EvRun "x/a.js" 2;
                   EvCompile "a"; EvCompile "a.js"; EvRun "a.js" 6].
Proof.
  do 2 eexists. split; [vm_compute; reflexivity|].
  repeat split; vm_compute; reflexivity.
Qed.

(** C9 fails on the code: [a/main.js] requires [./b], which loads
    [a/b.js]; its body requires the native module [a/b], the first
    resolve of that specifier, which creates module 4, files it under
    [a/b] and runs the loader. When [a/b.js] has finished, the outer
    resolve files its module 2 under its request key, which is [a/b]
    too, over the native entry. The next [require("a/b")] returns
    module 2, not the module the first resolve returned. *)
Lemma native_entry_overwritten :
  exists s0 s1 s2 s3 e,
    loadModule envNativeWrapper (require envNativeWrapper 1) "a/b" init = Some (s0, Err e)
    /\ modules (pending "a/b.js" s0) !! filepathClean "a/b" = None
    /\ require envNativeWrapper 1 (Some "a/b.js") "a/b" (pending "a/b.js" s0) = Some (s1, Ok 4)
    /\ modules s1 !! "a/b" = Some 4
    /\ require envNativeWrapper 2 (Some "a/main.js") "./b" init = Some (s2, Ok 2)
    /\ trace s2 = [EvCompile "a/b"; EvCompile "a/b.js"; EvRun "a/b.js" 2; EvNative "a/b" 4]
    /\ modules s2 !! "a/b" = Some 2
    /\ require envNativeWrapper 2 (Some "a/main.js") "a/b" s2 = Some (s3, Ok 2)
    /\ nativeRuns "a/b" (trace s3) = 1.
Proof.
  do 5 eexists. split; [vm_compute; reflexivity|].
  split; [vm_compute; reflexivity|].
  split; [vm_compute; reflexivity|].
  split; [vm_compute; reflexivity|].
  split; [vm_compute; reflexivity|].
  repeat split; vm_compute; reflexivity.
Qed.
